(** * The mtail metrics push exporter ([exporter/export.go])

    A shallow embedding of the exporter: the label serializer
    [formatLabels], the export pass [writeSocketMetrics], the push cycle
    [PushMetrics], the scheduler [StartMetricPush] and the constructor
    [New], followed by the properties of the specification.

    Go strings are byte sequences: they are modelled as [list ascii].
    Go maps are only ever ranged over by this code, and the order of a
    [range] is not fixed by the language: a map is modelled by the list of
    its entries in the order the [range] visits them. *)

From Stdlib Require Import ZArith Ascii String.
From stdpp Require Import base gmap list strings.

Local Open Scope Z_scope.

(** ** Go strings and the [strings] functions the exporter calls *)

Abbreviation gostring := (list ascii).

(** A string literal as a Go string. *)
Definition gs (s : string) : gostring := list_ascii_of_string s.

Module strings.

(** [strings.HasPrefix]. *)
Fixpoint HasPrefix (s prefix : gostring) : bool :=
  match prefix, s with
  | [], _ => true
  | p :: prefix', c :: s' => if Ascii.eqb p c then HasPrefix s' prefix' else false
  | _ :: _, [] => false
  end.

(** [strings.Index]: the position of the first instance of [substr] in
    [s]; Go's [-1] is [None]. *)
Fixpoint Index (s substr : gostring) : option nat :=
  if HasPrefix s substr then Some 0%nat
  else match s with
       | [] => None
       | _ :: s' => S <$> Index s' substr
       end.

Definition inRange (lo hi : N) (c : ascii) : bool :=
  ((lo <=? N_of_ascii c) && (N_of_ascii c <=? hi))%N.

(** The width returned by [utf8.DecodeRuneInString]: the length of the
    UTF-8 sequence [s] starts with, and [1] for a byte that starts no
    valid sequence. *)
Definition runeWidth (s : gostring) : nat :=
  match s with
  | [] => 0%nat
  | s0 :: t =>
      let x := N_of_ascii s0 in
      if ((x <? 0xC2) || (0xF4 <? x))%N then 1%nat
      else
        let sz := if (x <? 0xE0)%N then 2%nat
                  else if (x <? 0xF0)%N then 3%nat else 4%nat in
        let accept : N * N :=
          (if (x =? 0xE0) then (0xA0, 0xBF)
           else if (x =? 0xED) then (0x80, 0x9F)
           else if (x =? 0xF0) then (0x90, 0xBF)
           else if (x =? 0xF4) then (0x80, 0x8F)
           else (0x80, 0xBF))%N in
        if (length s <? sz)%nat then 1%nat
        else match t with
             | s1 :: t1 =>
                 if negb (inRange (fst accept) (snd accept) s1) then 1%nat
                 else if (sz <=? 2)%nat then 2%nat
                 else match t1 with
                      | s2 :: t2 =>
                          if negb (inRange 0x80 0xBF s2) then 1%nat
                          else if (sz <=? 3)%nat then 3%nat
                          else match t2 with
                               | s3 :: _ =>
                                   if negb (inRange 0x80 0xBF s3) then 1%nat
                                   else 4%nat
                               | [] => 1%nat
                               end
                      | [] => 1%nat
                      end
             | [] => 1%nat
             end
  end.

(** [utf8.RuneCountInString]; the fuel is the number of bytes, an upper
    bound on the number of runes. *)
Fixpoint runeCount (fuel : nat) (s : gostring) : nat :=
  match fuel, s with
  | S fuel', _ :: _ => S (runeCount fuel' (drop (runeWidth s) s))
  | _, _ => 0%nat
  end.

Definition RuneCountInString (s : gostring) : nat := runeCount (length s) s.

(** The loop of [strings.Count] for a separator of two bytes or more. *)
Fixpoint countLoop (fuel : nat) (s substr : gostring) : nat :=
  match fuel with
  | O => 0%nat
  | S fuel' =>
      match Index s substr with
      | None => 0%nat
      | Some i => S (countLoop fuel' (drop (i + length substr) s) substr)
      end
  end.

(** [strings.Count]: the number of non-overlapping instances of [substr]
    in [s]; one more than the number of runes when [substr] is empty. *)
Definition Count (s substr : gostring) : nat :=
  match substr with
  | [] => S (RuneCountInString s)
  | [c] => length (filter (λ x, x = c) s)
  | _ => countLoop (S (length s)) s substr
  end.

(** The loop of [strings.Replace]: [n] replacements are still to be
    made in [rest]; [first] says that this is the iteration [i = 0]. *)
Fixpoint replaceLoop (old new : gostring) (n : nat) (first : bool)
    (rest : gostring) : gostring :=
  match n with
  | O => rest
  | S n' =>
      let j := match old with
               | [] => if first then Some 0%nat else Some (runeWidth rest)
               | _ => Index rest old
               end in
      match j with
      | Some j =>
          take j rest ++ new
            ++ replaceLoop old new n' false (drop (j + length old) rest)
      | None => rest  (* not reached: [n] is at most [Count rest old] *)
      end
  end.

(** [strings.Replace (s, old, new, n)]. *)
Definition Replace (s old new : gostring) (n : Z) : gostring :=
  if bool_decide (old = new) || (n =? 0) then s
  else
    let m := Count s old in
    if (m =? 0)%nat then s
    else
      let n := if (n <? 0) || (Z.of_nat m <? n) then m else Z.to_nat n in
      replaceLoop old new n true s.

(** [strings.Join]. *)
Fixpoint joinRest (sep : gostring) (elems : list gostring) : gostring :=
  match elems with
  | [] => []
  | s :: elems' => sep ++ s ++ joinRest sep elems'
  end.

Definition Join (elems : list gostring) (sep : gostring) : gostring :=
  match elems with
  | [] => []
  | [s] => s
  | s :: elems' => s ++ joinRest sep elems'
  end.

End strings.

(** [fmt.Sprintf ("%s%s%s", a, b, c)]. *)
Definition Sprintf_sss (a b c : gostring) : gostring := a ++ b ++ c.

(** ** The label serializer *)

(** The labels of a label set: the entries of a [map[string]string] in
    the order a [range] over it yields them. *)
Abbreviation labelmap := (list (gostring * gostring)).

(** [formatLabels]: the loop appends one rendered pair to [s] per entry. *)
Definition formatLabels (name : gostring) (m : labelmap)
    (ksep sep rep : gostring) : gostring :=
  let r := name in
  if (0 <? length m)%nat then
    let s :=
      foldl (λ (s : list gostring) (kv : gostring * gostring),
               let k1 := strings.Replace (strings.Replace kv.1 ksep rep (-1)) sep rep (-1) in
               let v1 := strings.Replace (strings.Replace kv.2 ksep rep (-1)) sep rep (-1) in
               s ++ [Sprintf_sss k1 ksep v1])
            [] m in
    r ++ sep ++ strings.Join s sep
  else r.

(** ** Errors, counters and locks *)

(** A Go [error], by its message; [nil] is [None]. *)
Abbreviation error := gostring.

Definition newline : ascii := ascii_of_nat 10.

(** [errors.Errorf ("write error: %s\n", err)]. *)
Definition Errorf_write_error (err : error) : error :=
  gs "write error: " ++ err ++ [newline].

(** [errors.Wrap (err, "getting hostname")]. *)
Definition Wrap_getting_hostname (err : error) : error :=
  gs "getting hostname: " ++ err.

(** An [*expvar.Int], by its address: two targets, or the two counters of
    one target, may point to the same variable. *)
Abbreviation expvarInt := nat.

(** Addition on [int64], as [atomic.AddInt64] computes it. *)
Definition wrap64 (z : Z) : Z := (z + 2 ^ 63) mod 2 ^ 64 - 2 ^ 63.

(** What the exporter writes to the network. Every connection is named
    by the number of the [Dial] call that opened it. *)
Inductive event :=
| Dial (conn : nat) (network address : gostring) (err : option error)
| SetDeadline (conn : nat) (err : option error)
| Write (conn : nat) (line : gostring) (err : option error)
| Close (conn : nat) (err : option error).

(** The state the exporter acts on: the values of the [expvar.Int]
    variables, the read locks held on the registry and on each metric (by
    the address of the metric), the network events so far, the messages
    logged with [glog.Infof] and the number of [Dial] calls so far. The
    export runs on its own here: no producer holds or awaits a write
    lock, so [RLock] never blocks. *)
Record State := mkState {
  expvars : gmap nat Z;
  store_readers : nat;
  metric_readers : gmap nat nat;
  wire : list event;
  glog : list gostring;
  dialled : nat;
}.

Definition Value (st : State) (v : expvarInt) : Z := default 0 (expvars st !! v).

Definition readers (st : State) (m : nat) : nat :=
  default 0%nat (metric_readers st !! m).

(** [v.Add (delta)]. *)
Definition expvar_Add (v : expvarInt) (delta : Z) (st : State) : State :=
  mkState (<[v := wrap64 (Value st v + delta)]> (expvars st)) (store_readers st)
          (metric_readers st) (wire st) (glog st) (dialled st).

Definition Store_RLock (st : State) : State :=
  mkState (expvars st) (S (store_readers st)) (metric_readers st) (wire st)
          (glog st) (dialled st).

(** [RUnlock] of a lock no reader holds is a fatal error in Go; every
    [RUnlock] below follows its [RLock]. *)
Definition Store_RUnlock (st : State) : State :=
  mkState (expvars st) (Nat.pred (store_readers st)) (metric_readers st) (wire st)
          (glog st) (dialled st).

Definition Metric_RLock (m : nat) (st : State) : State :=
  mkState (expvars st) (store_readers st)
          (<[m := S (readers st m)]> (metric_readers st)) (wire st) (glog st)
          (dialled st).

Definition Metric_RUnlock (m : nat) (st : State) : State :=
  mkState (expvars st) (store_readers st)
          (<[m := Nat.pred (readers st m)]> (metric_readers st)) (wire st) (glog st)
          (dialled st).

Definition emit (ev : event) (st : State) : State :=
  mkState (expvars st) (store_readers st) (metric_readers st) (wire st ++ [ev])
          (glog st) (dialled st).

(** [glog.Infof]. The [glog.V(2)] messages depend on the verbosity flag
    and change nothing else: they are left out. *)
Definition Infof (msg : gostring) (st : State) : State :=
  mkState (expvars st) (store_readers st) (metric_readers st) (wire st)
          (glog st ++ [msg]) (dialled st).

Definition next_dial (st : State) : State :=
  mkState (expvars st) (store_readers st) (metric_readers st) (wire st) (glog st)
          (S (dialled st)).

(** ** The registry *)

(** Modelled from the spec: the [metrics] package ([Store], [Metric],
    [LabelSet], [EmitLabelSets]) is not in exporter/export.go. A label set
    is a mapping of labels and a value; a metric has a name, a lock of its
    own and the label sets it emits, a finite sequence in which no label
    set comes twice; the registry maps a name to a list of metrics. *)
Record LabelSet := mkLabelSet {
  Labels : labelmap;
  Datum : Z;
}.

Record Metric := mkMetric {
  m_addr : nat;
  Name : gostring;
  m_labelsets : list LabelSet;
}.

(** Modelled from the spec: what [m.EmitLabelSets (lc)] sends on [lc]
    before it closes the channel. *)
Definition EmitLabelSets (m : Metric) : list LabelSet := m_labelsets m.

(** Modelled from the spec: [Store.Metrics], a [map[string][]*Metric], as
    the entries a [range] over it yields. *)
Record Store := mkStore {
  Metrics : list (gostring * list Metric);
}.

(** ** Connections *)

(** The network decides how a connection behaves: whether the dial, the
    deadline, the k-th write (from 0) and the close succeed. Every run of
    the exporter against a real network is its run against one such
    script per dial. *)
Record ConnScript := mkScript {
  dial_result : option error;
  deadline_result : option error;
  write_result : nat -> option error;
  close_result : option error;
}.

(** An open [net.Conn]; [conn_writes] counts the [Write] calls on it. *)
Record Conn := mkConn {
  conn_id : nat;
  conn_script : ConnScript;
  conn_writes : nat;
}.

(** [fmt.Fprint (c, line)]: one [Write] call on [c]. The number of bytes
    written is only logged at verbosity 2. *)
Definition Fprint (c : Conn) (line : gostring) (st : State)
  : State * Conn * option error :=
  let err := write_result (conn_script c) (conn_writes c) in
  (emit (Write (conn_id c) line err) st,
   mkConn (conn_id c) (conn_script c) (S (conn_writes c)),
   err).

(** ** The exporter *)

Definition formatter := gostring -> Metric -> LabelSet -> gostring.

Record pushOptions := mkPushOptions {
  po_net : gostring;
  po_addr : gostring;
  po_f : formatter;
  po_total : expvarInt;
  po_success : expvarInt;
}.

Record Options := mkOptions {
  o_Store : option Store;
  Hostname : gostring;
  OmitProgLabel : bool;
}.

Record Exporter := mkExporter {
  e_store : Store;
  e_o : Options;
  pushTargets : list pushOptions;
}.

(** [for l := range lc] in [writeSocketMetrics]: the label sets still to
    be received. An error returns from the whole function. *)
Fixpoint rangeLabelSets (hostname : gostring) (f : formatter) (m : Metric)
    (exportSuccess : expvarInt) (lc : list LabelSet) (c : Conn) (st : State)
  : State * Conn * option error :=
  match lc with
  | [] => (st, c, None)
  | l :: lc' =>
      let line := f hostname m l in
      let '(st1, c1, err) := Fprint c line st in
      match err with
      | None =>
          rangeLabelSets hostname f m exportSuccess lc' c1
            (expvar_Add exportSuccess 1 st1)
      | Some err => (st1, c1, Some (Errorf_write_error err))
      end
  end.

(** [for _, m := range ml]. When the inner loop returns an error the
    function returns at once, [m.RUnlock ()] is not reached. *)
Fixpoint rangeMetrics (hostname : gostring) (f : formatter)
    (exportTotal exportSuccess : expvarInt) (ml : list Metric) (c : Conn)
    (st : State) : State * Conn * option error :=
  match ml with
  | [] => (st, c, None)
  | m :: ml' =>
      let st1 := Metric_RLock (m_addr m) st in
      let st2 := expvar_Add exportTotal 1 st1 in
      let '(st3, c3, err) :=
        rangeLabelSets hostname f m exportSuccess (EmitLabelSets m) c st2 in
      match err with
      | None =>
          rangeMetrics hostname f exportTotal exportSuccess ml' c3
            (Metric_RUnlock (m_addr m) st3)
      | Some err => (st3, c3, Some err)
      end
  end.

(** [for _, ml := range e.store.Metrics]. *)
Fixpoint rangeStore (hostname : gostring) (f : formatter)
    (exportTotal exportSuccess : expvarInt)
    (mls : list (gostring * list Metric)) (c : Conn) (st : State)
  : State * Conn * option error :=
  match mls with
  | [] => (st, c, None)
  | (_, ml) :: mls' =>
      let '(st1, c1, err) :=
        rangeMetrics hostname f exportTotal exportSuccess ml c st in
      match err with
      | None => rangeStore hostname f exportTotal exportSuccess mls' c1 st1
      | Some err => (st1, c1, Some err)
      end
  end.

(** [writeSocketMetrics]; the deferred [e.store.RUnlock ()] runs on every
    return. *)
Definition writeSocketMetrics (e : Exporter) (c : Conn) (f : formatter)
    (exportTotal exportSuccess : expvarInt) (st : State)
  : State * Conn * option error :=
  let st0 := Store_RLock st in
  let '(st1, c1, err) :=
    rangeStore (Hostname (e_o e)) f exportTotal exportSuccess
      (Metrics (e_store e)) c st0 in
  (Store_RUnlock st1, c1, err).

(** The body of the loop of [PushMetrics] for one target; [net] gives the
    script of every dial, by its number. *)
Definition pushTarget (net : nat -> ConnScript) (e : Exporter)
    (target : pushOptions) (st : State) : State :=
  let id := dialled st in
  let script := net id in
  let st := emit (Dial id (po_net target) (po_addr target) (dial_result script))
                 (next_dial st) in
  match dial_result script with
  | Some err => Infof (gs "pusher dial error: " ++ err) st
  | None =>
      let conn := mkConn id script 0 in
      let st := emit (SetDeadline id (deadline_result script)) st in
      let st := match deadline_result script with
                | Some err => Infof (gs "Couldn't set deadline on connection: " ++ err) st
                | None => st
                end in
      let '(st, conn, err) :=
        writeSocketMetrics e conn (po_f target) (po_total target)
          (po_success target) st in
      let st := match err with
                | Some err => Infof (gs "pusher write error: " ++ err) st
                | None => st
                end in
      let st := emit (Close (conn_id conn) (close_result script)) st in
      match close_result script with
      | Some err => Infof (gs "connection close failed: " ++ err) st
      | None => st
      end
  end.

(** [for _, target := range e.pushTargets]. *)
Definition rangeTargets (net : nat -> ConnScript) (e : Exporter)
    (targets : list pushOptions) (st : State) : State :=
  foldl (λ st target, pushTarget net e target st) st targets.

(** [PushMetrics]. *)
Definition PushMetrics (net : nat -> ConnScript) (e : Exporter) (st : State)
  : State :=
  rangeTargets net e (pushTargets e) st.

(** [RegisterPushExport]. *)
Definition RegisterPushExport (e : Exporter) (p : pushOptions) : Exporter :=
  mkExporter (e_store e) (e_o e) (pushTargets e ++ [p]).

(** ** The scheduler *)

(** [time.Second], in nanoseconds. *)
Definition Second : Z := 1000000000.

(** [time.NewTicker (d)] panics when [d] is not positive. *)
Definition NewTicker (d : Z) : option Z :=
  if d <=? 0 then None else Some d.

(** What [StartMetricPush] leaves behind: nothing, a panic of
    [time.NewTicker], or a ticker of some period (in nanoseconds) with the
    goroutine that calls [PushMetrics] at every tick. *)
Inductive pusher :=
| NotStarted
| TickerPanic
| Ticking (period : Z).

(** [StartMetricPush]; [pushInterval] is the value of the flag
    [metric_push_interval_seconds]. The multiplication is one of
    [time.Duration], an [int64]. *)
Definition StartMetricPush (pushInterval : Z) (e : Exporter) (st : State)
  : State * pusher :=
  if (0 <? length (pushTargets e))%nat then
    let st := Infof (gs "Started metric push.") st in
    match NewTicker (wrap64 (wrap64 pushInterval * Second)) with
    | Some d => (st, Ticking d)
    | None => (st, TickerPanic)
    end
  else (st, NotStarted).

(** The state after the ticker has delivered [n] ticks: the goroutine runs
    [PushMetrics] once per tick it receives, one call after the other. *)
Definition ticks (net : nat -> ConnScript) (e : Exporter) (p : pusher)
    (n : nat) (st : State) : State :=
  match p with
  | Ticking _ => Nat.iter n (PushMetrics net e) st
  | _ => st
  end.

(** ** The constructor *)

(** The package variables [New] reads that other files of the package
    declare: the three address flags, the three formatters and the six
    counters. *)
Record Backends := mkBackends {
  collectdSocketPath : gostring;
  graphiteHostPort : gostring;
  statsdHostPort : gostring;
  metricToCollectd : formatter;
  metricToGraphite : formatter;
  metricToStatsd : formatter;
  collectdExportTotal : expvarInt;
  collectdExportSuccess : expvarInt;
  graphiteExportTotal : expvarInt;
  graphiteExportSuccess : expvarInt;
  statsdExportTotal : expvarInt;
  statsdExportSuccess : expvarInt;
}.

(** [New]; [os_Hostname] is what [os.Hostname ()] returns. *)
Definition New (b : Backends) (os_Hostname : gostring * option error)
    (o : Options) : option Exporter * option error :=
  match o_Store o with
  | None => (None, Some (gs "exporter needs a Store"))
  | Some store =>
      let '(hostname, err) :=
        if bool_decide (Hostname o = []) then os_Hostname
        else (Hostname o, None) in
      match err with
      | Some err => (None, Some (Wrap_getting_hostname err))
      | None =>
          let o := mkOptions (o_Store o) hostname (OmitProgLabel o) in
          let e := mkExporter store o [] in
          let e :=
            if bool_decide (collectdSocketPath b ≠ []) then
              RegisterPushExport e
                (mkPushOptions (gs "unix") (collectdSocketPath b)
                   (metricToCollectd b) (collectdExportTotal b)
                   (collectdExportSuccess b))
            else e in
          let e :=
            if bool_decide (graphiteHostPort b ≠ []) then
              RegisterPushExport e
                (mkPushOptions (gs "tcp") (graphiteHostPort b)
                   (metricToGraphite b) (graphiteExportTotal b)
                   (graphiteExportSuccess b))
            else e in
          let e :=
            if bool_decide (statsdHostPort b ≠ []) then
              RegisterPushExport e
                (mkPushOptions (gs "udp") (statsdHostPort b)
                   (metricToStatsd b) (statsdExportTotal b)
                   (statsdExportSuccess b))
            else e in
          (Some e, None)
      end
  end.

(** ** The serializer in the words of the specification *)

(** "Any occurrence of keySep or pairSep inside the key or value text is
    replaced with replacement": what a key or a value is rendered as. *)
Definition escape (ksep sep rep t : gostring) : gostring :=
  strings.Replace (strings.Replace t ksep rep (-1)) sep rep (-1).

(** "Each pair is then rendered as key<keySep>value." *)
Definition rendered_pair (ksep sep rep : gostring) (kv : gostring * gostring)
  : gostring :=
  escape ksep sep rep kv.1 ++ ksep ++ escape ksep sep rep kv.2.

(** "All rendered pairs are joined with pairSep." *)
Fixpoint joined (sep : gostring) (parts : list gostring) : gostring :=
  match parts with
  | [] => []
  | p :: ps => match ps with
               | [] => p
               | _ :: _ => p ++ sep ++ joined sep ps
               end
  end.

(** "name<pairSep>k1<keySep>v1<pairSep>k2<keySep>v2...", and the name
    alone for an empty mapping. *)
Definition serialize_spec (name : gostring) (m : labelmap)
    (ksep sep rep : gostring) : gostring :=
  match m with
  | [] => name
  | _ :: _ => name ++ sep ++ joined sep (rendered_pair ksep sep rep <$> m)
  end.

(** [sub] occurs in [t], as [strings.Contains] decides it. *)
Definition occurs (sub t : gostring) : Prop := is_Some (strings.Index t sub).

(** No rendered key and no rendered value holds a separator: the only
    separators of the line after the name are the ones [formatLabels]
    puts between the fields. *)
Definition separators_escaped (m : labelmap) (ksep sep rep : gostring) : Prop :=
  Forall (λ kv : gostring * gostring,
            (¬ occurs ksep (escape ksep sep rep kv.1)
             ∧ ¬ occurs sep (escape ksep sep rep kv.1))
            ∧ (¬ occurs ksep (escape ksep sep rep kv.2)
               ∧ ¬ occurs sep (escape ksep sep rep kv.2))) m.

(** Every byte [a] of [s] replaced by [rep]. *)
Definition subst_byte (a : ascii) (rep s : gostring) : gostring :=
  s ≫= (λ c, if bool_decide (c = a) then rep else [c]).

(** ** What one export pass does, by the script of its connection *)

(** One [Add (1)]. *)
Definition incr (v : Z) : Z := wrap64 (v + 1).

(** The lines a metric, a list of metrics and the registry are rendered
    as, in the order of the ranges. *)
Definition metric_lines (hostname : gostring) (f : formatter) (m : Metric)
  : list gostring :=
  f hostname m <$> EmitLabelSets m.

Definition list_lines (hostname : gostring) (f : formatter) (ml : list Metric)
  : list gostring :=
  ml ≫= metric_lines hostname f.

Definition store_metrics (mls : list (gostring * list Metric)) : list Metric :=
  mls ≫= snd.

Definition export_lines (e : Exporter) (f : formatter) : list gostring :=
  list_lines (Hostname (e_o e)) f (store_metrics (Metrics (e_store e))).

(** Of the [n] writes from the [k]-th on, the number that succeed before
    the first one that fails. *)
Fixpoint ok_writes (script : ConnScript) (k n : nat) : nat :=
  match n with
  | O => O
  | S n' => match write_result script k with
            | None => S (ok_writes script (S k) n')
            | Some _ => O
            end
  end.

(** The number of metrics of [ml] a pass gets to, when its first write is
    the [k]-th of the connection. *)
Fixpoint entered (script : ConnScript) (k : nat) (ml : list Metric) : nat :=
  match ml with
  | [] => O
  | m :: ml' =>
      let n := length (EmitLabelSets m) in
      if decide (ok_writes script k n = n)
      then S (entered script (k + n) ml')
      else 1%nat
  end.

(** The [Write] events of [lines], the first being the [k]-th write. *)
Fixpoint write_events (id : nat) (script : ConnScript) (k : nat)
    (lines : list gostring) : list event :=
  match lines with
  | [] => []
  | line :: lines' =>
      Write id line (write_result script k) :: write_events id script (S k) lines'
  end.

(** What a loop of the pass over [lines] leaves, after it got to [ent]
    metrics: the writes up to the first failure are on the wire, every
    successful one is counted in [exportSuccess] and every metric
    reached in [exportTotal]. *)
Definition pass_result (exportTotal exportSuccess : expvarInt) (ent : nat)
    (lines : list gostring) (c : Conn) (st : State)
    (r : State * Conn * option error) : Prop :=
  let n := ok_writes (conn_script c) (conn_writes c) (length lines) in
  wire r.1.1
  = wire st ++ write_events (conn_id c) (conn_script c) (conn_writes c)
                 (take (S n) lines)
  ∧ (∀ v, Value r.1.1 v
          = Nat.iter ((if decide (v = exportTotal) then ent else O)
                      + (if decide (v = exportSuccess) then n else O))
              incr (Value st v))
  ∧ (store_readers r.1.1 = store_readers st
     ∧ glog r.1.1 = glog st ∧ dialled r.1.1 = dialled st)
  ∧ r.1.2 = mkConn (conn_id c) (conn_script c)
              (conn_writes c + min (S n) (length lines))
  ∧ r.2 = (if decide (n < length lines)%nat
           then Errorf_write_error
                  <$> write_result (conn_script c) (conn_writes c + n)
           else None).

(** The connection an event is about. *)
Definition conn_of (ev : event) : nat :=
  match ev with
  | Dial id _ _ _ | SetDeadline id _ | Write id _ _ | Close id _ => id
  end.

Definition is_Dial (ev : event) : bool :=
  match ev with
  | Dial _ _ _ _ => true
  | _ => false
  end.

(** The events of one target's push on the connection [id]: its dial,
    then events of that connection only, none of them a dial; after a
    successful dial the last one is the close, after a failed dial there
    is none. *)
Definition target_segment (net : nat -> ConnScript) (id : nat)
    (t : pushOptions) (seg : list event) : Prop :=
  ∃ tail,
    seg = Dial id (po_net t) (po_addr t) (dial_result (net id)) :: tail
    ∧ Forall (λ ev, conn_of ev = id ∧ is_Dial ev = false) tail
    ∧ match dial_result (net id) with
      | None => last tail = Some (Close id (close_result (net id)))
      | Some _ => tail = []
      end.

(** One segment per target, in the order of the targets, the first
    target dialling the connection [d]. *)
Fixpoint tick_segments (net : nat -> ConnScript) (d : nat)
    (targets : list pushOptions) (segs : list (list event)) : Prop :=
  match targets, segs with
  | [], [] => True
  | t :: targets', seg :: segs' =>
      target_segment net d t seg ∧ tick_segments net (S d) targets' segs'
  | _, _ => False
  end.

(** ** A small registry and two connections, for the examples *)

(** The metric of the specification's example: "requests" with the label
    sets {region:"us"} -> 5 and {region:"eu"} -> 3. *)
Definition requests : Metric :=
  mkMetric 7 (gs "requests")
    [ mkLabelSet [(gs "region", gs "us")] 5;
      mkLabelSet [(gs "region", gs "eu")] 3 ].

Definition requests_store : Store := mkStore [(gs "requests", [requests])].

(** A formatter in the manner of the graphite one: the serialized name
    and labels, and a newline. *)
Definition line_formatter : formatter :=
  λ hostname m l,
    formatLabels (Name m) (Labels l) (gs ".") (gs ".") (gs "_") ++ [newline].

(** A connection on which everything succeeds. *)
Definition healthy : ConnScript := mkScript None None (λ _, None) None.

(** A connection whose write number [i] (from 0) fails. *)
Definition fails_at (i : nat) : ConnScript :=
  mkScript None None
    (λ k, if (k =? i)%nat then Some (gs "broken pipe") else None) None.

(** A host that cannot be dialled. *)
Definition unreachable : ConnScript :=
  mkScript (Some (gs "connection refused")) None (λ _, None) None.

Definition idle : State := mkState ∅ O ∅ [] [] O.

(** A graphite target counting in the variables 1 and 2, and a statsd
    target counting in the variables 3 and 4. *)
Definition graphite_target : pushOptions :=
  mkPushOptions (gs "tcp") (gs "localhost:2003") line_formatter 1%nat 2%nat.

Definition statsd_target : pushOptions :=
  mkPushOptions (gs "udp") (gs "localhost:8125") line_formatter 3%nat 4%nat.

Definition requests_exporter (targets : list pushOptions) : Exporter :=
  mkExporter requests_store (mkOptions (Some requests_store) (gs "host") false)
    targets.

(** ** Auxiliary notions for the further properties *)

(** The number of bytes [a] in [s]. *)
Definition count_byte (a : ascii) (s : gostring) : nat :=
  length (filter (λ x, x = a) s).



Definition is_Write (ev : event) : bool :=
  match ev with
  | Write _ _ _ => true
  | _ => false
  end.

(** The three push options [New] builds, in the order of its three
    tests. *)
Definition backend_targets (b : Backends) : list pushOptions :=
  [ mkPushOptions (gs "unix") (collectdSocketPath b) (metricToCollectd b)
      (collectdExportTotal b) (collectdExportSuccess b);
    mkPushOptions (gs "tcp") (graphiteHostPort b) (metricToGraphite b)
      (graphiteExportTotal b) (graphiteExportSuccess b);
    mkPushOptions (gs "udp") (statsdHostPort b) (metricToStatsd b)
      (statsdExportTotal b) (statsdExportSuccess b) ].



(** A backend with the graphite address set and the two others unset. *)
Definition graphite_only : Backends :=
  mkBackends [] (gs "localhost:2003") [] line_formatter line_formatter
    line_formatter 5%nat 6%nat 1%nat 2%nat 3%nat 4%nat.

(** A registry whose one metric has no label set yet. *)
Definition bare_exporter : Exporter :=
  mkExporter (mkStore [(gs "bare", [mkMetric 9 (gs "bare") []])])
    (mkOptions None (gs "host") false) [graphite_target].

(** A connection on which the deadline cannot be set and the close
    fails, and every write succeeds. *)
Definition careless : ConnScript :=
  mkScript None (Some (gs "deadline not supported")) (λ _, None)
    (Some (gs "already closed")).

(** ** Properties of the [strings] functions *)

Section StringsFacts.

Implicit Types (s t rep : gostring) (a b c : ascii).

Lemma HasPrefix_single s a :
  strings.HasPrefix s [a] = match s with
                            | [] => false
                            | c :: _ => Ascii.eqb a c
                            end.
Proof.
  destruct s as [|c s]; simpl; [done|].
  destruct (Ascii.eqb a c); [by destruct s|done].
Qed.

Lemma Index_single_cons a c s :
  strings.Index (c :: s) [a]
  = if bool_decide (c = a) then Some 0%nat else S <$> strings.Index s [a].
Proof.
  cbn [strings.Index]. rewrite HasPrefix_single.
  destruct (Ascii.eqb_spec a c) as [->|Hne].
  - by rewrite bool_decide_eq_true_2.
  - rewrite bool_decide_eq_false_2; [done|congruence].
Qed.

Lemma Index_single_None s a : strings.Index s [a] = None ↔ a ∉ s.
Proof.
  induction s as [|c s IH].
  - split; [intros _; apply not_elem_of_nil|done].
  - rewrite Index_single_cons, not_elem_of_cons.
    case_bool_decide as Hc.
    + split; [done|]. intros [? _]. congruence.
    + destruct (strings.Index s [a]) eqn:E; simpl.
      * split; [done|]. intros [_ Hs]. by apply IH in Hs.
      * split; [|done]. intros _. split; [congruence|]. by apply IH.
Qed.

Lemma occurs_single s a : occurs [a] s ↔ a ∈ s.
Proof.
  unfold occurs. destruct (decide (a ∈ s)) as [Hin|Hout].
  - split; [done|]. intros _.
    destruct (strings.Index s [a]) eqn:E; [done|].
    by apply Index_single_None in E.
  - split; [|done]. apply Index_single_None in Hout. rewrite Hout.
    by intros [? ?].
Qed.

Lemma subst_byte_cons a rep c s :
  subst_byte a rep (c :: s)
  = (if bool_decide (c = a) then rep else [c]) ++ subst_byte a rep s.
Proof. done. Qed.

Lemma subst_byte_absent a rep s : a ∉ s → subst_byte a rep s = s.
Proof.
  induction s as [|c s IH]; [done|]. rewrite not_elem_of_cons. intros [Hne Hs].
  rewrite subst_byte_cons, IH by done.
  rewrite bool_decide_eq_false_2; [done|congruence].
Qed.

(** The loop replaces every [a], whatever fuel is left over. *)
Lemma replaceLoop_single a rep n s first :
  (length (filter (λ x, x = a) s) ≤ n)%nat →
  strings.replaceLoop [a] rep n first s = subst_byte a rep s.
Proof.
  revert s first. induction n as [|n IHn]; intros s first Hn.
  - simpl. symmetry. apply subst_byte_absent.
    intros Hin. assert (a ∈ filter (λ x, x = a) s) as Hf
      by (by apply list_elem_of_filter).
    destruct (filter (λ x, x = a) s); [by apply elem_of_nil in Hf|simpl in Hn; lia].
  - cbn [strings.replaceLoop]. revert Hn.
    induction s as [|c s IHs]; intros Hn; [done|].
    rewrite Index_single_cons, subst_byte_cons.
    case_bool_decide as Hc.
    + subst c. simpl. f_equal. rewrite drop_0. apply IHn.
      rewrite filter_cons_True in Hn by done. simpl in Hn. lia.
    + rewrite filter_cons_False in Hn by done. specialize (IHs Hn).
      destruct (strings.Index s [a]) as [j|] eqn:E; simpl in *.
      * by rewrite <- IHs.
      * by rewrite <- IHs.
Qed.

Lemma Replace_single s a rep :
  strings.Replace s [a] rep (-1) = subst_byte a rep s.
Proof.
  unfold strings.Replace. case_bool_decide as Heq; simpl.
  - subst rep. induction s as [|c s IH]; [done|].
    rewrite subst_byte_cons, <- IH. by case_bool_decide; subst.
  - destruct (Nat.eqb_spec (length (filter (λ x, x = a) s)) 0) as [E|E].
    + symmetry. apply subst_byte_absent. intros Hin.
      assert (a ∈ filter (λ x, x = a) s) as Hf by (by apply list_elem_of_filter).
      destruct (filter (λ x, x = a) s); [by apply elem_of_nil in Hf|done].
    + by apply replaceLoop_single.
Qed.

Lemma elem_of_subst_byte a rep s c :
  c ∈ subst_byte a rep s → c ∈ rep ∨ (c ∈ s ∧ c ≠ a).
Proof.
  unfold subst_byte. rewrite list_elem_of_bind. intros (x & Hc & Hx).
  case_bool_decide; [by left|]. apply list_elem_of_singleton in Hc. subst.
  by right.
Qed.

Example Replace_empty_old :
  strings.Replace (gs "ab") [] (gs "-") (-1) = gs "-a-b-".
Proof. vm_compute. reflexivity. Qed.

Example Replace_leftmost_first :
  strings.Replace (gs "aaa") (gs "aa") (gs "b") (-1) = gs "ba".
Proof. vm_compute. reflexivity. Qed.

Example Replace_deletion_joins :
  strings.Replace (gs "aabb") (gs "ab") [] (-1) = gs "ab".
Proof. vm_compute. reflexivity. Qed.

Example runeWidth_two_bytes :
  strings.runeWidth [ascii_of_nat 195; ascii_of_nat 169; ascii_of_nat 65] = 2%nat
  ∧ strings.runeWidth [ascii_of_nat 169; ascii_of_nat 65] = 1%nat.
Proof. vm_compute. split; reflexivity. Qed.

End StringsFacts.

(** ** Properties of the label serializer *)

Section Serializer.

Implicit Types (name ksep sep rep : gostring) (m : labelmap).

(** The loop of [formatLabels] collects the rendered pairs in the order
    of the [range]. *)
Lemma formatLabels_loop ksep sep rep m (acc : list gostring) :
  foldl (λ (s : list gostring) (kv : gostring * gostring),
           let k1 := strings.Replace (strings.Replace kv.1 ksep rep (-1)) sep rep (-1) in
           let v1 := strings.Replace (strings.Replace kv.2 ksep rep (-1)) sep rep (-1) in
           s ++ [Sprintf_sss k1 ksep v1])
        acc m
  = acc ++ (rendered_pair ksep sep rep <$> m).
Proof.
  revert acc. induction m as [|kv m IH]; intros acc; simpl.
  - by rewrite app_nil_r.
  - rewrite IH, <- app_assoc. done.
Qed.

Lemma joined_cons sep (p : gostring) (ps : list gostring) :
  joined sep (p :: ps) = p ++ strings.joinRest sep ps.
Proof.
  revert p. induction ps as [|q ps IH]; intros p.
  - simpl. by rewrite app_nil_r.
  - change (joined sep (p :: q :: ps)) with (p ++ sep ++ joined sep (q :: ps)).
    by rewrite IH.
Qed.

Lemma Join_joined sep (parts : list gostring) :
  strings.Join parts sep = joined sep parts.
Proof.
  destruct parts as [|p [|q ps]]; [done..|].
  rewrite joined_cons. done.
Qed.

Lemma joinRest_concat sep (parts : list gostring) :
  strings.joinRest sep parts = concat ((λ p, sep ++ p) <$> parts).
Proof.
  induction parts as [|p ps IH]; [done|]. simpl. by rewrite IH, <- app_assoc.
Qed.

Lemma formatLabels_serialize name m ksep sep rep :
  formatLabels name m ksep sep rep = serialize_spec name m ksep sep rep.
Proof.
  unfold formatLabels. rewrite formatLabels_loop, Join_joined.
  by destruct m.
Qed.

(** The line is the name followed, for every label, by [sep], the
    rendered key, [ksep] and the rendered value. *)
Lemma formatLabels_fields name m ksep sep rep :
  formatLabels name m ksep sep rep
  = name ++ concat ((λ kv, sep ++ escape ksep sep rep kv.1 ++ ksep
                             ++ escape ksep sep rep kv.2) <$> m).
Proof.
  rewrite formatLabels_serialize. destruct m as [|kv m].
  - simpl. by rewrite app_nil_r.
  - unfold serialize_spec. rewrite fmap_cons, joined_cons, joinRest_concat.
    rewrite <- list_fmap_compose. unfold rendered_pair.
    rewrite fmap_cons. simpl. by rewrite <- !app_assoc.
Qed.

(** Bytes that are neither in the text nor in the replacement are not
    in the rendered text; the two separator bytes are replaced. *)
Lemma escape_single_free a b rep t :
  a ∉ rep → b ∉ rep →
  (a ∉ escape [a] [b] rep t) ∧ (b ∉ escape [a] [b] rep t).
Proof.
  intros Ha Hb. unfold escape. rewrite !Replace_single. split.
  - intros Hin. apply elem_of_subst_byte in Hin as [?|[Hin _]]; [done|].
    apply elem_of_subst_byte in Hin as [?|[_ ?]]; done.
  - intros Hin. apply elem_of_subst_byte in Hin as [?|[_ ?]]; done.
Qed.

(** C7: for every name and every keySep, pairSep and replacement,
    [formatLabels] applied to the empty label mapping returns the name
    unchanged. *)
Theorem formatLabels_empty name ksep sep rep :
  formatLabels name [] ksep sep rep = name.
Proof. reflexivity. Qed.

(** C10: [formatLabels] does not escape the metric name. The returned
    line is the name as it stands, separators included, followed by a
    block of labels that does not depend on the name, and in that block
    it is the keys and the values that went through the replacement; as
    for the name "a,b=c" with the separators "=" and ",". *)
Theorem formatLabels_name_verbatim :
  (∀ name m ksep sep rep,
     formatLabels name m ksep sep rep
     = name ++ formatLabels [] m ksep sep rep
     ∧ formatLabels [] m ksep sep rep
       = concat ((λ kv, sep ++ escape ksep sep rep kv.1 ++ ksep
                          ++ escape ksep sep rep kv.2) <$> m))
  ∧ formatLabels (gs "a,b=c") [(gs "k=1", gs "v,2")] (gs "=") (gs ",") (gs "_")
    = gs "a,b=c,k_1=v_2".
Proof.
  split; [|vm_compute; reflexivity].
  intros name m ksep sep rep. by rewrite !formatLabels_fields.
Qed.

(** C6: for every name, every non-empty label mapping and every
    keySep, pairSep and replacement, [formatLabels] returns the name,
    then pairSep, then the pairs joined by pairSep, each pair being the
    key, keySep and the value, with the occurrences of keySep and of
    pairSep in the key and in the value replaced by the replacement. In
    particular the line of the specification's example is
    "latency,path=/a_b". *)
Theorem formatLabels_nonempty :
  (∀ name kv m ksep sep rep,
     formatLabels name (kv :: m) ksep sep rep
     = name ++ sep ++ joined sep (rendered_pair ksep sep rep <$> kv :: m))
  ∧ formatLabels (gs "latency") [(gs "path", gs "/a,b")] (gs "=") (gs ",") (gs "_")
    = gs "latency,path=/a_b".
Proof.
  split; [|vm_compute; reflexivity].
  intros name kv m ksep sep rep. by rewrite formatLabels_serialize.
Qed.

(** C3, as amended: when keySep and pairSep are one byte each and the
    replacement holds neither byte, the line is the name followed, for
    every label, by pairSep, the rendered key, keySep and the rendered
    value, and no rendered key or value holds keySep or pairSep. *)
Theorem formatLabels_separators_escaped name m (a b : ascii) rep :
  a ∉ rep → b ∉ rep →
  formatLabels name m [a] [b] rep
  = name ++ concat ((λ kv, [b] ++ escape [a] [b] rep kv.1 ++ [a]
                             ++ escape [a] [b] rep kv.2) <$> m)
  ∧ separators_escaped m [a] [b] rep.
Proof.
  intros Ha Hb. split; [apply formatLabels_fields|].
  apply Forall_forall. intros kv _. rewrite !occurs_single.
  destruct (escape_single_free a b rep kv.1 Ha Hb).
  destruct (escape_single_free a b rep kv.2 Ha Hb). done.
Qed.

Lemma formatLabels_separators_escaped_witness :
  formatLabels (gs "latency") [(gs "path", gs "/a,b"); (gs "a=b", gs "x")]
    [ascii_of_nat 61] [ascii_of_nat 44] (gs "_")
  = gs "latency,path=/a_b,a_b=x"
  ∧ separators_escaped [(gs "path", gs "/a,b"); (gs "a=b", gs "x")]
      [ascii_of_nat 61] [ascii_of_nat 44] (gs "_").
Proof.
  destruct (formatLabels_separators_escaped (gs "latency")
              [(gs "path", gs "/a,b"); (gs "a=b", gs "x")]
              (ascii_of_nat 61) (ascii_of_nat 44) (gs "_")) as [_ H].
  - vm_compute. intros H. repeat (inversion H as [|? ? ? H']; subst; clear H; rename H' into H).
  - vm_compute. intros H. repeat (inversion H as [|? ? ? H']; subst; clear H; rename H' into H).
  - split; [vm_compute; reflexivity|exact H].
Defined.

(** C3, as stated, fails: for every replacement string it is false.
    With the replacement "," for the separators "=" and ",", the key
    "a,b" is rendered as it stands; with the empty replacement for the
    separators "ab" and "=", deleting "ab" from the key "aabb" leaves
    "ab". *)
Lemma formatLabels_separators_not_escaped :
  (occurs (gs ",") (gs "a,b")
   ∧ formatLabels (gs "m") [(gs "a,b", gs "c")] (gs "=") (gs ",") (gs ",")
     = gs "m,a,b=c"
   ∧ ¬ separators_escaped [(gs "a,b", gs "c")] (gs "=") (gs ",") (gs ","))
  ∧ (occurs (gs "ab") (gs "aabb")
     ∧ formatLabels (gs "m") [(gs "aabb", gs "c")] (gs "ab") (gs "=") []
       = gs "m=ababc"
     ∧ ¬ separators_escaped [(gs "aabb", gs "c")] (gs "ab") (gs "=") []).
Proof.
  split; (split; [vm_compute; eauto|]); (split; [vm_compute; reflexivity|]).
  - intros H. apply Forall_cons_1 in H as [[[_ H] _] _]. apply H.
    vm_compute. eauto.
  - intros H. apply Forall_cons_1 in H as [[[H _] _] _]. apply H.
    vm_compute. eauto.
Qed.

End Serializer.

(** ** Counters and locks *)

Lemma Value_expvar_Add v w st :
  Value (expvar_Add v 1 st) w
  = if decide (w = v) then incr (Value st v) else Value st w.
Proof.
  unfold Value at 1. simpl. destruct (decide (w = v)) as [->|Hne].
  - by rewrite lookup_insert_eq.
  - by rewrite lookup_insert_ne.
Qed.



Lemma iter_incr_S n x : Nat.iter n incr (incr x) = Nat.iter (S n) incr x.
Proof. induction n as [|n IH]; [done|]. simpl in *. by rewrite IH. Qed.

Lemma iter_incr_add a b x :
  Nat.iter a incr (Nat.iter b incr x) = Nat.iter (a + b) incr x.
Proof. induction a as [|a IH]; [done|]. simpl. by rewrite IH. Qed.

(** Both sides are iterated increments of one value. *)
Ltac iter_norm :=
  repeat first
    [ rewrite iter_incr_S
    | rewrite iter_incr_add
    | progress change (incr (Nat.iter ?n incr ?x)) with (Nat.iter (S n) incr x) ];
  try done; f_equal; lia.

(** Without overflow, [n] increments add [n]. *)
Lemma iter_incr_small n x :
  - 2 ^ 63 ≤ x → x + Z.of_nat n < 2 ^ 63 → Nat.iter n incr x = x + Z.of_nat n.
Proof.
  induction n as [|n IH]; intros Hlo Hhi; simpl; [lia|].
  rewrite IH by lia. unfold incr, wrap64.
  rewrite Z.mod_small; lia.
Qed.

(** ** The writes of a pass *)

Lemma ok_writes_le script k n : (ok_writes script k n ≤ n)%nat.
Proof.
  revert k. induction n as [|n IH]; intros k; simpl; [done|].
  destruct (write_result script k); [lia|]. specialize (IH (S k)). lia.
Qed.

Lemma ok_writes_app script k a b :
  ok_writes script k (a + b)
  = if decide (ok_writes script k a = a)
    then (a + ok_writes script (k + a) b)%nat
    else ok_writes script k a.
Proof.
  revert k. induction a as [|a IH]; intros k; simpl.
  - by rewrite Nat.add_0_r.
  - destruct (write_result script k) eqn:E.
    + by rewrite decide_False.
    + rewrite IH. replace (k + S a)%nat with (S k + a)%nat by lia.
      destruct (decide (ok_writes script (S k) a = a)) as [Ha|Ha].
      * by rewrite decide_True by congruence.
      * rewrite decide_False; [done|congruence].
Qed.

(** The write after the successful ones fails, if there is one. *)
Lemma ok_writes_fails script k n :
  (ok_writes script k n < n)%nat →
  is_Some (write_result script (k + ok_writes script k n)).
Proof.
  revert k. induction n as [|n IH]; intros k; simpl; [lia|].
  destruct (write_result script k) eqn:E.
  - intros _. rewrite Nat.add_0_r, E. eauto.
  - intros Hlt. replace (k + S (ok_writes script (S k) n))%nat
      with (S k + ok_writes script (S k) n)%nat by lia.
    apply IH. lia.
Qed.

(** The number of successful writes, when the [i]-th is the first to
    fail. *)
Lemma ok_writes_first_failure script k n j err :
  (j < n)%nat →
  (∀ x, (x < j)%nat → write_result script (k + x) = None) →
  write_result script (k + j) = Some err →
  ok_writes script k n = j.
Proof.
  revert k j. induction n as [|n IH]; intros k j Hj Hok Hfail; [lia|].
  simpl. destruct j as [|j].
  - rewrite Nat.add_0_r in Hfail. by rewrite Hfail.
  - assert (write_result script k = None) as ->
      by (rewrite <- (Nat.add_0_r k); apply Hok; lia).
    f_equal. apply IH; [lia| |].
    + intros x Hx. replace (S k + x)%nat with (k + S x)%nat by lia.
      apply Hok. lia.
    + by replace (S k + j)%nat with (k + S j)%nat by lia.
Qed.

Lemma ok_writes_healthy script k n :
  (∀ x, write_result script x = None) → ok_writes script k n = n.
Proof.
  intros H. revert k. induction n as [|n IH]; intros k; simpl; [done|].
  by rewrite H, IH.
Qed.

Lemma entered_healthy script k ml :
  (∀ x, write_result script x = None) → entered script k ml = length ml.
Proof.
  intros H. revert k. induction ml as [|m ml IH]; intros k; simpl; [done|].
  rewrite decide_True by (by apply ok_writes_healthy). by rewrite IH.
Qed.

Lemma write_events_app id script k l1 l2 :
  write_events id script k (l1 ++ l2)
  = write_events id script k l1 ++ write_events id script (k + length l1) l2.
Proof.
  revert k. induction l1 as [|l l1 IH]; intros k; simpl.
  - by rewrite Nat.add_0_r.
  - rewrite IH. by replace (S k + length l1)%nat with (k + S (length l1))%nat by lia.
Qed.

(** ** The loops of [writeSocketMetrics] *)

Section Pass.

Variables (hostname : gostring) (f : formatter).
Variables (exportTotal exportSuccess : expvarInt).


Lemma rangeLabelSets_spec m lc c st :
  pass_result exportTotal exportSuccess O (f hostname m <$> lc) c st
    (rangeLabelSets hostname f m exportSuccess lc c st).
Proof.
  revert c st. induction lc as [|l lc IH]; intros c st.
  - unfold pass_result. simpl. rewrite app_nil_r, Nat.add_0_r.
    split_and!; try done.
    + intros v. by repeat case_decide.
    + by destruct c.
  - unfold pass_result.
    cbn [rangeLabelSets Fprint fmap list_fmap length ok_writes].
    destruct (write_result (conn_script c) (conn_writes c)) as [err|] eqn:E.
    + simpl. rewrite Nat.add_0_r, E.
      split_and!; try done; try (intros v; by repeat case_decide);
        try (f_equal; lia); try (rewrite decide_True by lia; done).
    + specialize (IH (mkConn (conn_id c) (conn_script c) (S (conn_writes c)))
                    (expvar_Add exportSuccess 1
                       (emit (Write (conn_id c) (f hostname m l) None) st))).
      destruct IH as (Hw & Hv & Hf & Hc & He). simpl in Hw, Hv, Hf, Hc, He.
      set (n := ok_writes (conn_script c) (S (conn_writes c))
                  (length (f hostname m <$> lc))) in *.
      split_and!.
      * rewrite Hw. cbn [take write_events]. rewrite E, <- app_assoc. done.
      * intros v. rewrite Hv, Value_expvar_Add. simpl.
        destruct (decide (v = exportSuccess)) as [->|?];
          destruct (decide (_ = exportTotal)); simpl;
          rewrite ?iter_incr_S; done.
      * apply Hf.
      * apply Hf.
      * apply Hf.
      * rewrite Hc. f_equal. simpl. lia.
      * rewrite He. simpl.
        replace (conn_writes c + S n)%nat with (S (conn_writes c) + n)%nat by lia.
        destruct (decide (n < length (f hostname m <$> lc))%nat);
          [rewrite decide_True by lia|rewrite decide_False by lia]; done.
Qed.

Lemma list_lines_cons m ml :
  list_lines hostname f (m :: ml)
  = metric_lines hostname f m ++ list_lines hostname f ml.
Proof. done. Qed.

Lemma length_metric_lines m :
  length (metric_lines hostname f m) = length (EmitLabelSets m).
Proof. unfold metric_lines. by rewrite length_fmap. Qed.

Lemma rangeMetrics_spec ml c st :
  pass_result exportTotal exportSuccess
    (entered (conn_script c) (conn_writes c) ml) (list_lines hostname f ml) c st
    (rangeMetrics hostname f exportTotal exportSuccess ml c st).
Proof.
  revert c st. induction ml as [|m ml IH]; intros c st.
  - unfold pass_result. simpl. rewrite app_nil_r, Nat.add_0_r.
    split_and!; try done.
    + intros v. by repeat case_decide.
    + by destruct c.
  - cbn [rangeMetrics].
    pose proof (rangeLabelSets_spec m (EmitLabelSets m) c
                  (expvar_Add exportTotal 1 (Metric_RLock (m_addr m) st))) as H1.
    fold (metric_lines hostname f m) in H1.
    destruct (rangeLabelSets hostname f m exportSuccess (EmitLabelSets m) c
                (expvar_Add exportTotal 1 (Metric_RLock (m_addr m) st)))
      as [[st3 c3] err].
    destruct H1 as (Hw & Hv & (Hf1 & Hf2 & Hf3) & Hc & He).
    cbn [fst snd wire store_readers glog dialled Metric_RLock expvar_Add]
      in Hw, Hv, Hf1, Hf2, Hf3, Hc, He.
    pose proof (ok_writes_le (conn_script c) (conn_writes c)
                  (length (metric_lines hostname f m))) as Hle.
    set (n1 := ok_writes (conn_script c) (conn_writes c)
                 (length (metric_lines hostname f m))) in *.
    unfold pass_result. rewrite list_lines_cons, length_app, ok_writes_app.
    fold n1. cbn [entered]. rewrite <- length_metric_lines. fold n1.
    destruct (decide (n1 = length (metric_lines hostname f m))) as [Hn|Hn].
    + (* every write of this metric succeeded *)
      rewrite decide_False in He by lia. subst err.
      specialize (IH c3 (Metric_RUnlock (m_addr m) st3)).
      destruct (rangeMetrics hostname f exportTotal exportSuccess ml c3
                  (Metric_RUnlock (m_addr m) st3)) as [[st' c'] err'].
      destruct IH as (Hw' & Hv' & (Hf1' & Hf2' & Hf3') & Hc' & He').
      subst c3.
      cbn [fst snd conn_id conn_script conn_writes wire store_readers glog
             dialled Metric_RUnlock] in Hw', Hv', Hf1', Hf2', Hf3', Hc', He'.
      assert (Init.Nat.min (S n1) (length (metric_lines hostname f m))
              = length (metric_lines hostname f m)) as Hmin by lia.
      rewrite Hmin in Hw', Hv', Hc', He'. clear Hmin.
      set (n2 := ok_writes (conn_script c)
                   (conn_writes c + length (metric_lines hostname f m))
                   (length (list_lines hostname f ml))) in *.
      cbn [fst snd]. split_and!.
      * rewrite Hw', Hw. rewrite <- app_assoc. f_equal.
        rewrite (take_ge (metric_lines hostname f m)) by lia.
        replace (S (length (metric_lines hostname f m) + n2))
          with (length (metric_lines hostname f m) + S n2)%nat by lia.
        rewrite take_app_add, write_events_app. done.
      * intros v. rewrite Hv'.
        change (Value (Metric_RUnlock (m_addr m) st3) v) with (Value st3 v).
        rewrite Hv, Value_expvar_Add.
        change (Value (Metric_RLock (m_addr m) st) ?x) with (Value st x).
        rewrite Hn.
        destruct (decide (v = exportTotal)) as [->|?];
          destruct (decide (_ = exportSuccess)) as [?|?]; simpl; iter_norm.
      * by rewrite Hf1'.
      * by rewrite Hf2'.
      * by rewrite Hf3'.
      * rewrite Hc'. f_equal.
        pose proof (ok_writes_le (conn_script c)
                      (conn_writes c + length (metric_lines hostname f m))
                      (length (list_lines hostname f ml))).
        fold n2 in H. lia.
      * rewrite He'.
        replace (conn_writes c + (length (metric_lines hostname f m) + n2))%nat
          with (conn_writes c + length (metric_lines hostname f m) + n2)%nat by lia.
        destruct (decide (n2 < length (list_lines hostname f ml))%nat);
          [rewrite decide_True by lia|rewrite decide_False by lia]; done.
    + (* a write of this metric failed: the function returns *)
      rewrite decide_True in He by lia.
      destruct (ok_writes_fails (conn_script c) (conn_writes c)
                  (length (metric_lines hostname f m))) as [e0 He0]; [fold n1; lia|].
      fold n1 in He0. rewrite He0 in He. simpl in He. subst err.
      cbn [fst snd]. split_and!.
      * rewrite Hw. f_equal. by rewrite take_app_le by lia.
      * intros v. rewrite Hv, Value_expvar_Add.
        change (Value (Metric_RLock (m_addr m) st) ?x) with (Value st x).
        destruct (decide (v = exportTotal)) as [->|?];
          destruct (decide (_ = exportSuccess)) as [?|?]; simpl; iter_norm.
      * done.
      * done.
      * done.
      * rewrite Hc. f_equal. lia.
      * rewrite decide_True by lia. by rewrite He0.
Qed.

(** Ranging over two lists of metrics, one after the other. *)
Lemma rangeMetrics_app ml1 ml2 c st :
  rangeMetrics hostname f exportTotal exportSuccess (ml1 ++ ml2) c st
  = let '(st1, c1, err) :=
      rangeMetrics hostname f exportTotal exportSuccess ml1 c st in
    match err with
    | None => rangeMetrics hostname f exportTotal exportSuccess ml2 c1 st1
    | Some err => (st1, c1, Some err)
    end.
Proof.
  revert c st. induction ml1 as [|m ml1 IH]; intros c st; [done|].
  cbn [app rangeMetrics].
  destruct (rangeLabelSets hostname f m exportSuccess (EmitLabelSets m) c
              (expvar_Add exportTotal 1 (Metric_RLock (m_addr m) st)))
    as [[st3 c3] [err|]]; [done|].
  apply IH.
Qed.

(** The range over the registry visits the metrics of its lists in turn. *)
Lemma rangeStore_flat mls c st :
  rangeStore hostname f exportTotal exportSuccess mls c st
  = rangeMetrics hostname f exportTotal exportSuccess (store_metrics mls) c st.
Proof.
  revert c st. induction mls as [|[name ml] mls IH]; intros c st; [done|].
  cbn [rangeStore]. change (store_metrics ((name, ml) :: mls))
    with (ml ++ store_metrics mls).
  rewrite rangeMetrics_app.
  destruct (rangeMetrics hostname f exportTotal exportSuccess ml c st)
    as [[st1 c1] [err|]]; [done|].
  apply IH.
Qed.


End Pass.

(** ** [writeSocketMetrics] *)

Lemma writeSocketMetrics_spec e c f exportTotal exportSuccess st :
  pass_result exportTotal exportSuccess
    (entered (conn_script c) (conn_writes c) (store_metrics (Metrics (e_store e))))
    (export_lines e f) c st
    (writeSocketMetrics e c f exportTotal exportSuccess st).
Proof.
  unfold writeSocketMetrics. rewrite rangeStore_flat.
  pose proof (rangeMetrics_spec (Hostname (e_o e)) f exportTotal exportSuccess
                (store_metrics (Metrics (e_store e))) c (Store_RLock st)) as H.
  destruct (rangeMetrics (Hostname (e_o e)) f exportTotal exportSuccess
              (store_metrics (Metrics (e_store e))) c (Store_RLock st))
    as [[st1 c1] err].
  destruct H as (Hw & Hv & (Hf1 & Hf2 & Hf3) & Hc & He).
  unfold pass_result. cbn [fst snd] in *. split_and!; try done.
  cbn [store_readers Store_RUnlock Store_RLock] in *. by rewrite Hf1.
Qed.


(** X4: Over a healthy connection the pass returns [nil], writes every line,
    and has added the number of metrics to the attempted counter and the
    number of label sets to the success counter. *)
Lemma writeSocketMetrics_healthy e c f exportTotal exportSuccess st :
  (∀ k, write_result (conn_script c) k = None) →
  let r := writeSocketMetrics e c f exportTotal exportSuccess st in
  r.2 = None
  ∧ wire r.1.1
    = wire st ++ write_events (conn_id c) (conn_script c) (conn_writes c)
                   (export_lines e f)
  ∧ ∀ v, Value r.1.1 v
         = Nat.iter
             ((if decide (v = exportTotal)
               then length (store_metrics (Metrics (e_store e))) else O)
              + (if decide (v = exportSuccess)
                 then length (export_lines e f) else O))
             incr (Value st v).
Proof.
  intros Hok.
  pose proof (writeSocketMetrics_spec e c f exportTotal exportSuccess st)
    as (Hw & Hv & _ & _ & He).
  rewrite ok_writes_healthy in Hw, Hv, He by done.
  rewrite entered_healthy in Hv by done.
  rewrite decide_False in He by lia. rewrite take_ge in Hw by lia.
  done.
Qed.

(** When the [i]-th write is the first to fail, the writes on the wire
    are [i - 1] successful ones and the failed one. *)
Lemma write_events_first_failure id script k lines j err :
  (j < length lines)%nat →
  (∀ x, (x < j)%nat → write_result script (k + x) = None) →
  write_result script (k + j) = Some err →
  ∃ line, lines !! j = Some line
          ∧ write_events id script k (take (S j) lines)
            = ((λ l, Write id l None) <$> take j lines)
                ++ [Write id line (Some err)].
Proof.
  revert k j. induction lines as [|l lines IH]; intros k j Hj Hok Hfail;
    simpl in Hj; [lia|].
  destruct j as [|j].
  - exists l. split; [done|]. simpl. rewrite Nat.add_0_r in Hfail.
    by rewrite Hfail.
  - destruct (IH (S k) j) as (line & Hline & Hev).
    + lia.
    + intros x Hx. replace (S k + x)%nat with (k + S x)%nat by lia.
      apply Hok. lia.
    + by replace (S k + j)%nat with (k + S j)%nat by lia.
    + exists line. split; [done|].
      assert (write_result script k = None) as Hk
        by (rewrite <- (Nat.add_0_r k); apply Hok; lia).
      cbn [take write_events fmap list_fmap]. rewrite Hk, Hev. done.
Qed.

(** ** One target's push *)

Lemma pushTarget_dial_failed net e target st err :
  dial_result (net (dialled st)) = Some err →
  pushTarget net e target st
  = Infof (gs "pusher dial error: " ++ err)
      (emit (Dial (dialled st) (po_net target) (po_addr target) (Some err))
         (next_dial st)).
Proof. intros H. unfold pushTarget. cbn [dialled next_dial emit]. by rewrite H. Qed.

Lemma pushTarget_connected net e target st :
  dial_result (net (dialled st)) = None →
  let id := dialled st in
  let script := net id in
  let lines := export_lines e (po_f target) in
  let n := ok_writes script O (length lines) in
  wire (pushTarget net e target st)
  = wire st
      ++ [Dial id (po_net target) (po_addr target) None;
          SetDeadline id (deadline_result script)]
      ++ write_events id script O (take (S n) lines)
      ++ [Close id (close_result script)]
  ∧ (∀ v, Value (pushTarget net e target st) v
          = Nat.iter
              ((if decide (v = po_total target)
                then entered script O (store_metrics (Metrics (e_store e)))
                else O)
               + (if decide (v = po_success target) then n else O))
              incr (Value st v))
  ∧ dialled (pushTarget net e target st) = S (dialled st)
  ∧ store_readers (pushTarget net e target st) = store_readers st.
Proof.
  intros Hdial. cbv zeta. unfold pushTarget. cbv zeta.
  cbn [dialled next_dial emit]. rewrite !Hdial.
  set (id := dialled st). set (script := net id).
  set (lines := export_lines e (po_f target)).
  set (n := ok_writes script O (length lines)).
  set (stD := match deadline_result script with
              | Some err => _
              | None => _
              end).
  assert (wire stD = wire st ++ [Dial id (po_net target) (po_addr target) None;
                                SetDeadline id (deadline_result script)]
          ∧ (∀ v, Value stD v = Value st v)
          ∧ dialled stD = S (dialled st)
          ∧ store_readers stD = store_readers st) as (HDw & HDv & HDd & HDs).
  { subst stD. destruct (deadline_result script); cbn [wire Infof emit];
      rewrite <- app_assoc; done. }
  pose proof (writeSocketMetrics_spec e (mkConn id script O) (po_f target)
                (po_total target) (po_success target) stD) as H.
  destruct (writeSocketMetrics e (mkConn id script O) (po_f target)
              (po_total target) (po_success target) stD) as [[st' c'] err].
  destruct H as (Hw & Hv & (Hf1 & Hf2 & Hf3) & Hc & He).
  cbn [fst snd conn_id conn_script conn_writes] in Hw, Hv, Hf1, Hf2, Hf3, Hc, He.
  fold lines in Hw, Hv, Hc, He. fold n in Hw, Hv, Hc, He.
  assert (conn_id c' = id) as -> by (by rewrite Hc).
  split_and!.
  - destruct err, (close_result script); cbn [wire Infof emit];
      rewrite Hw, HDw, <- !app_assoc; done.
  - intros v. rewrite <- HDv, <- Hv.
    destruct err, (close_result script); done.
  - transitivity (dialled stD); [|exact HDd]. rewrite <- Hf3.
    destruct err, (close_result script); done.
  - transitivity (store_readers stD); [|exact HDs]. rewrite <- Hf1.
    destruct err, (close_result script); done.
Qed.

(** Whatever the network does, a target's push extends the wire by one
    segment and uses up one dial. *)
Lemma pushTarget_segment net e target st :
  ∃ seg, target_segment net (dialled st) target seg
         ∧ wire (pushTarget net e target st) = wire st ++ seg
         ∧ dialled (pushTarget net e target st) = S (dialled st).
Proof.
  destruct (dial_result (net (dialled st))) as [err|] eqn:Hdial.
  - rewrite (pushTarget_dial_failed _ _ _ _ _ Hdial).
    exists [Dial (dialled st) (po_net target) (po_addr target) (Some err)].
    split_and!; [|done..]. exists []. rewrite Hdial. done.
  - destruct (pushTarget_connected net e target st Hdial) as (Hw & _ & Hd & _).
    eexists. split_and!; [|exact Hw|exact Hd].
    eexists. rewrite Hdial. split_and!; [reflexivity| |].
    + apply Forall_cons. split; [done|]. apply Forall_app. split.
      * generalize (take
          (S (ok_writes (net (dialled st)) 0
                (length (export_lines e (po_f target)))))
          (export_lines e (po_f target))).
        generalize O. intros k l. revert k.
        induction l as [|x l IH]; intros k; [done|].
        apply Forall_cons. split; [done|]. apply IH.
      * by apply Forall_singleton.
    + exact (last_snoc _ (_ :: _)).
Qed.

Lemma rangeTargets_cons net e target targets st :
  rangeTargets net e (target :: targets) st
  = rangeTargets net e targets (pushTarget net e target st).
Proof. done. Qed.

Lemma rangeTargets_app net e pre post st :
  rangeTargets net e (pre ++ post) st
  = rangeTargets net e post (rangeTargets net e pre st).
Proof. apply foldl_app. Qed.

(** A tick is one segment per target, in the order of registration. *)
Lemma rangeTargets_segments net e targets st :
  ∃ segs, tick_segments net (dialled st) targets segs
          ∧ wire (rangeTargets net e targets st) = wire st ++ concat segs
          ∧ dialled (rangeTargets net e targets st)
            = (dialled st + length targets)%nat.
Proof.
  revert st. induction targets as [|t targets IH]; intros st.
  - exists []. simpl. by rewrite app_nil_r, Nat.add_0_r.
  - rewrite rangeTargets_cons.
    destruct (pushTarget_segment net e t st) as (seg & Hseg & Hw & Hd).
    destruct (IH (pushTarget net e t st)) as (segs & Hsegs & Hw' & Hd').
    exists (seg :: segs). split_and!.
    + simpl. split; [done|]. by rewrite <- Hd.
    + rewrite Hw', Hw. simpl. by rewrite <- app_assoc.
    + rewrite Hd', Hd. simpl. lia.
Qed.

(** Every target is dialled, whatever became of the targets before it. *)
Lemma rangeTargets_dials net e targets st k t :
  targets !! k = Some t →
  Dial (dialled st + k)%nat (po_net t) (po_addr t)
    (dial_result (net (dialled st + k)%nat))
  ∈ wire (rangeTargets net e targets st).
Proof.
  revert st k. induction targets as [|t' targets IH]; intros st k Hk; [done|].
  rewrite rangeTargets_cons.
  destruct (pushTarget_segment net e t' st) as (seg & (tail & -> & _) & Hw & Hd).
  destruct k as [|k]; simpl in Hk.
  - injection Hk as ->. rewrite Nat.add_0_r.
    destruct (rangeTargets_segments net e targets (pushTarget net e t st))
      as (segs & _ & Hw' & _).
    rewrite Hw', Hw. apply elem_of_app. left. apply elem_of_app. right.
    apply list_elem_of_here.
  - replace (dialled st + S k)%nat
      with (dialled (pushTarget net e t' st) + k)%nat by lia.
    by apply IH.
Qed.

Lemma wrap64_small x : - 2 ^ 63 ≤ x < 2 ^ 63 → wrap64 x = x.
Proof. intros H. unfold wrap64. rewrite Z.mod_small; lia. Qed.

(** ** The properties of the push cycle *)

(** C1: the code counts attempts per metric, not per label set. At the
    specification's example, the registry with the one metric "requests"
    and its two label sets pushed to one target over a healthy
    connection, the cycle writes the two lines and raises the success
    counter by 2, and it raises the attempted counter by 1:
    [exportTotal.Add (1)] runs once per metric, before the loop over its
    label sets. *)
Theorem attempted_counted_per_metric :
  let st := PushMetrics (λ _, healthy) (requests_exporter [graphite_target]) idle in
  wire st
  = [ Dial 0 (gs "tcp") (gs "localhost:2003") None;
      SetDeadline 0 None;
      Write 0 (gs "requests.region.us" ++ [newline]) None;
      Write 0 (gs "requests.region.eu" ++ [newline]) None;
      Close 0 None ]
  ∧ Value idle (po_total graphite_target) = 0
  ∧ Value st (po_total graphite_target) = 1
  ∧ Value idle (po_success graphite_target) = 0
  ∧ Value st (po_success graphite_target) = 2.
Proof. vm_compute. split_and!; reflexivity. Qed.

(** C2: a write error leaves the lock of the metric held. When the
    second write of the pass over the metric "requests" fails,
    [writeSocketMetrics] returns the error from inside the loop over the
    label sets: the deferred unlock releases the registry, and
    [m.RUnlock ()] is not reached, so the metric that had no reader
    before the pass has one after it. *)
Theorem write_error_keeps_metric_locked :
  let r := writeSocketMetrics (requests_exporter [graphite_target])
             (mkConn 0 (fails_at 1) 0) line_formatter 1%nat 2%nat idle in
  r.2 = Some (Errorf_write_error (gs "broken pipe"))
  ∧ store_readers idle = O ∧ store_readers r.1.1 = O
  ∧ readers idle (m_addr requests) = O
  ∧ readers r.1.1 (m_addr requests) = 1%nat.
Proof. vm_compute. split_and!; reflexivity. Qed.

(** C4: if a target has been dialled and the [i]-th write of a line to
    its connection is the first to fail, then the writes of this target
    in this tick are the [i - 1] successful ones and the failed one, the
    success counter of the target (a variable other than its attempted
    counter) has been incremented [i - 1] times, the connection is closed
    after the failed write, and [PushMetrics], which returns no error,
    goes on with the targets that follow: each of them is dialled. *)
Theorem write_failure_contained net e pre target post st0 (i : nat) err :
  pushTargets e = pre ++ target :: post →
  let st := rangeTargets net e pre st0 in
  let id := dialled st in
  let script := net id in
  let lines := export_lines e (po_f target) in
  dial_result script = None →
  (1 ≤ i ≤ length lines)%nat →
  (∀ k, (k < i - 1)%nat → write_result script k = None) →
  write_result script (i - 1)%nat = Some err →
  po_total target ≠ po_success target →
  let st1 := pushTarget net e target st in
  (∃ line,
     lines !! (i - 1)%nat = Some line
     ∧ wire st1
       = wire st
           ++ [Dial id (po_net target) (po_addr target) None;
               SetDeadline id (deadline_result script)]
           ++ ((λ l, Write id l None) <$> take (i - 1) lines)
           ++ [Write id line (Some err)]
           ++ [Close id (close_result script)])
  ∧ Value st1 (po_success target)
    = Nat.iter (i - 1) incr (Value st (po_success target))
  ∧ PushMetrics net e st0 = rangeTargets net e post st1
  ∧ ∀ k t, post !! k = Some t →
           Dial (dialled st1 + k)%nat (po_net t) (po_addr t)
             (dial_result (net (dialled st1 + k)%nat))
           ∈ wire (PushMetrics net e st0).
Proof.
  intros Htargets st id script lines Hdial Hi Hok Hfail Hne st1.
  destruct (pushTarget_connected net e target st Hdial) as (Hw & Hv & _).
  fold id script lines st1 in Hw, Hv.
  assert (ok_writes script O (length lines) = (i - 1)%nat) as Hn
    by (apply (ok_writes_first_failure _ _ _ _ err); [lia|done..]).
  rewrite Hn in Hw, Hv.
  destruct (write_events_first_failure id script O lines (i - 1)%nat err)
    as (line & Hline & Hev); [lia|done..|].
  assert (PushMetrics net e st0 = rangeTargets net e post st1) as Hrest.
  { unfold PushMetrics. by rewrite Htargets, rangeTargets_app, rangeTargets_cons. }
  split_and!.
  - exists line. split; [done|]. by rewrite Hw, Hev, <- !app_assoc.
  - rewrite Hv. rewrite decide_False by done. by rewrite decide_True by done.
  - done.
  - intros k t Hk. rewrite Hrest. by apply rangeTargets_dials.
Qed.

Lemma write_failure_contained_witness :
  let net := λ d : nat, if (d =? 0)%nat then fails_at 1 else healthy in
  let e := requests_exporter [graphite_target; statsd_target] in
  let st1 := pushTarget net e graphite_target idle in
  Value st1 2%nat = 1
  ∧ PushMetrics net e idle = rangeTargets net e [statsd_target] st1
  ∧ Dial 1 (gs "udp") (gs "localhost:8125") None ∈ wire (PushMetrics net e idle).
Proof.
  intros net e st1.
  destruct (write_failure_contained net e [] graphite_target [statsd_target]
              idle 2 (gs "broken pipe")) as (_ & Hv & Hrest & Hdials).
  - reflexivity.
  - reflexivity.
  - vm_compute. lia.
  - intros k Hk. replace k with O by (simpl in Hk; lia). reflexivity.
  - reflexivity.
  - vm_compute. discriminate.
  - split_and!.
    + exact Hv.
    + exact Hrest.
    + exact (Hdials O statsd_target eq_refl).
Defined.

(** C5: if the dial of a target fails, the push of that target changes
    no counter and no lock, and puts nothing on the wire but the failed
    dial: no deadline, no write, no close; [PushMetrics] goes on with the
    targets that follow, and each of them is dialled. *)
Theorem dial_failure_skips_target net e pre target post st0 err :
  pushTargets e = pre ++ target :: post →
  let st := rangeTargets net e pre st0 in
  dial_result (net (dialled st)) = Some err →
  let st1 := pushTarget net e target st in
  expvars st1 = expvars st
  ∧ wire st1
    = wire st ++ [Dial (dialled st) (po_net target) (po_addr target) (Some err)]
  ∧ store_readers st1 = store_readers st
  ∧ metric_readers st1 = metric_readers st
  ∧ PushMetrics net e st0 = rangeTargets net e post st1
  ∧ ∀ k t, post !! k = Some t →
           Dial (dialled st1 + k)%nat (po_net t) (po_addr t)
             (dial_result (net (dialled st1 + k)%nat))
           ∈ wire (PushMetrics net e st0).
Proof.
  intros Htargets st Hdial st1.
  assert (PushMetrics net e st0 = rangeTargets net e post st1) as Hrest.
  { unfold PushMetrics. by rewrite Htargets, rangeTargets_app, rangeTargets_cons. }
  subst st1. rewrite (pushTarget_dial_failed _ _ _ _ _ Hdial) in *.
  split_and!; try done.
  intros k t Hk. rewrite Hrest. by apply rangeTargets_dials.
Qed.

Lemma dial_failure_skips_target_witness :
  let net := λ d : nat, if (d =? 0)%nat then unreachable else healthy in
  let e := requests_exporter [graphite_target; statsd_target] in
  let st1 := pushTarget net e graphite_target idle in
  expvars st1 = ∅
  ∧ wire st1
    = [Dial 0 (gs "tcp") (gs "localhost:2003") (Some (gs "connection refused"))]
  ∧ Dial 1 (gs "udp") (gs "localhost:8125") None ∈ wire (PushMetrics net e idle).
Proof.
  intros net e st1.
  destruct (dial_failure_skips_target net e [] graphite_target [statsd_target]
              idle (gs "connection refused"))
    as (Hc & Hw & _ & _ & _ & Hdials).
  - reflexivity.
  - reflexivity.
  - split_and!.
    + exact Hc.
    + exact Hw.
    + exact (Hdials O statsd_target eq_refl).
Defined.

(** ** Properties of the scheduler *)

(** C8, as amended: with no target registered, [StartMetricPush] starts
    no ticker, and however many ticks would have passed the state, the
    counters with it, is unchanged. With a target registered and an
    interval between 1 and 9223372036 seconds, the nanoseconds of which
    fit [time.Duration], it starts a ticker of that interval; at every
    tick [PushMetrics] runs once, and one run is one segment per target,
    in the order of registration: the dial of the target and then events
    of that connection only, the close being the last of them. *)
Theorem scheduler_pushes_every_target_in_order :
  (∀ net pushInterval e st,
     pushTargets e = [] →
     StartMetricPush pushInterval e st = (st, NotStarted)
     ∧ ∀ n st', ticks net e NotStarted n st' = st')
  ∧ (∀ net pushInterval e st,
       pushTargets e ≠ [] →
       0 < pushInterval ≤ 9223372036 →
       (StartMetricPush pushInterval e st).2 = Ticking (pushInterval * Second)
       ∧ (∀ n st',
            ticks net e (Ticking (pushInterval * Second)) (S n) st'
            = PushMetrics net e
                (ticks net e (Ticking (pushInterval * Second)) n st'))
       ∧ (∀ st', ∃ segs,
            tick_segments net (dialled st') (pushTargets e) segs
            ∧ wire (PushMetrics net e st') = wire st' ++ concat segs)).
Proof.
  split.
  - intros net pushInterval e st He. unfold StartMetricPush. by rewrite He.
  - intros net pushInterval e st He Hiv. split_and!.
    + unfold StartMetricPush. destruct (pushTargets e) as [|t ts]; [done|].
      cbn [length Nat.ltb Nat.leb]. unfold Second in *.
      rewrite (wrap64_small pushInterval) by lia.
      rewrite wrap64_small by lia.
      unfold NewTicker. destruct (Z.leb_spec (pushInterval * 1000000000) 0); [lia|done].
    + done.
    + intros st'. unfold PushMetrics.
      destruct (rangeTargets_segments net e (pushTargets e) st')
        as (segs & Hsegs & Hw & _).
      by exists segs.
Qed.

Lemma scheduler_pushes_every_target_in_order_witness :
  let net := λ d : nat, if (d =? 0)%nat then unreachable else healthy in
  let e := requests_exporter [graphite_target; statsd_target] in
  StartMetricPush 60 (requests_exporter []) idle = (idle, NotStarted)
  ∧ ticks net (requests_exporter []) NotStarted 1000 idle = idle
  ∧ (StartMetricPush 60 e idle).2 = Ticking (60 * Second)
  ∧ ∃ segs, tick_segments net 0 (pushTargets e) segs
            ∧ wire (PushMetrics net e idle) = concat segs.
Proof.
  intros net e.
  destruct scheduler_pushes_every_target_in_order as [Hnone Hsome].
  destruct (Hnone net 60 (requests_exporter []) idle eq_refl) as [H0 H1].
  destruct (Hsome net 60 e idle) as (H2 & _ & H3).
  - discriminate.
  - lia.
  - split_and!.
    + exact H0.
    + exact (H1 1000%nat idle).
    + exact H2.
    + exact (H3 idle).
Defined.

(** C8, as stated, fails: with the interval 0 and a target registered,
    [time.NewTicker] panics, no ticker is started and no push follows.
    The same holds from 9223372037 seconds on, where the nanoseconds
    overflow [time.Duration] into a negative number; and 18446744074
    seconds wrap around to a ticker of 290448384 nanoseconds. *)
Lemma scheduler_panics_on_zero_interval :
  let e := requests_exporter [graphite_target] in
  pushTargets e ≠ []
  ∧ (StartMetricPush 0 e idle).2 = TickerPanic
  ∧ (∀ net n st, ticks net e (StartMetricPush 0 e idle).2 n st = st)
  ∧ (StartMetricPush 9223372037 e idle).2 = TickerPanic
  ∧ (StartMetricPush 18446744074 e idle).2 = Ticking 290448384.
Proof. split_and!; done. Qed.

(** ** Properties of the constructor *)

(** C9: [New] returns an error and no exporter when the options have no
    store; when they have one, and the options name a host or
    [os.Hostname] returns no error, [New] returns an exporter on that
    store and under that hostname, and no error. *)
Theorem New_needs_a_store b (os_Hostname : gostring * option error) o :
  (o_Store o = None →
   New b os_Hostname o = (None, Some (gs "exporter needs a Store")))
  ∧ (∀ store,
       o_Store o = Some store →
       Hostname o ≠ [] ∨ os_Hostname.2 = None →
       ∃ e, New b os_Hostname o = (Some e, None)
            ∧ e_store e = store
            ∧ Hostname (e_o e)
              = if bool_decide (Hostname o = []) then os_Hostname.1
                else Hostname o).
Proof.
  split.
  - intros H. unfold New. by rewrite H.
  - intros store Hs Hh. unfold New. rewrite Hs.
    destruct os_Hostname as [h herr]. cbn [fst snd] in *.
    assert ((if bool_decide (Hostname o = []) then (h, herr)
             else (Hostname o, None))
            = (if bool_decide (Hostname o = []) then h else Hostname o, None))
      as ->.
    { case_bool_decide as Hn; [|done]. destruct Hh as [Hh|Hh]; [done|by subst]. }
    eexists. split; [reflexivity|].
    repeat case_bool_decide; done.
Qed.

Lemma New_needs_a_store_witness :
  let b := mkBackends [] (gs "localhost:2003") [] line_formatter
             line_formatter line_formatter 1 2 3 4 5 6 in
  New b ([], Some (gs "no hostname")) (mkOptions None (gs "host") false)
  = (None, Some (gs "exporter needs a Store"))
  ∧ ∃ e, New b (gs "box", None) (mkOptions (Some requests_store) [] false)
         = (Some e, None)
         ∧ e_store e = requests_store ∧ Hostname (e_o e) = gs "box".
Proof.
  intros b. split.
  - exact (proj1 (New_needs_a_store b ([], Some (gs "no hostname"))
                    (mkOptions None (gs "host") false)) eq_refl).
  - exact (proj2 (New_needs_a_store b (gs "box", None)
                    (mkOptions (Some requests_store) [] false))
             requests_store eq_refl (or_intror eq_refl)).
Defined.

(** * Further properties of the exporter *)

(** ** The serializer on labels without separators *)

Lemma HasPrefix_nil s : strings.HasPrefix s [] = true.
Proof. by destruct s. Qed.

(** Where [old] does not occur there is nothing to replace. *)
Lemma Replace_absent s old new :
  strings.Index s old = None → strings.Replace s old new (-1) = s.
Proof.
  intros Hidx. unfold strings.Replace.
  destruct (bool_decide (old = new)); [done|]. cbn [orb Z.eqb].
  assert (strings.Count s old = O) as ->; [|done].
  destruct old as [|c [|c' old]].
  - destruct s; simpl in Hidx; done.
  - apply Index_single_None in Hidx. unfold strings.Count.
    induction s as [|x s IH]; [done|].
    apply not_elem_of_cons in Hidx as [Hne Hs].
    rewrite filter_cons_False by congruence. by apply IH.
  - unfold strings.Count. cbn [strings.countLoop]. by rewrite Hidx.
Qed.

Lemma escape_absent ksep sep rep t :
  ¬ occurs ksep t → ¬ occurs sep t → escape ksep sep rep t = t.
Proof.
  unfold occurs. rewrite <- !eq_None_not_Some. intros Hk Hs.
  unfold escape. rewrite (Replace_absent t ksep rep Hk). by apply Replace_absent.
Qed.

(** X1: Labels in which no separator occurs are written as they are, for
    separators of any length and any replacement. *)
Theorem formatLabels_clean_labels_verbatim name (m : labelmap) ksep sep rep :
  Forall (λ kv : gostring * gostring,
            (¬ occurs ksep kv.1 ∧ ¬ occurs sep kv.1)
            ∧ (¬ occurs ksep kv.2 ∧ ¬ occurs sep kv.2)) m →
  formatLabels name m ksep sep rep
  = name ++ concat ((λ kv, sep ++ kv.1 ++ ksep ++ kv.2) <$> m).
Proof.
  intros Hm. rewrite formatLabels_fields. f_equal. f_equal.
  apply Forall_fmap_ext. eapply Forall_impl; [exact Hm|].
  intros [k v] [[Hk1 Hk2] [Hv1 Hv2]]. cbn [fst snd] in *.
  by rewrite !escape_absent.
Qed.

Lemma formatLabels_clean_labels_verbatim_witness :
  formatLabels (gs "requests") [(gs "region", gs "us"); (gs "zone", gs "b")]
    (gs "=") (gs ", ") (gs "_")
  = gs "requests, region=us, zone=b".
Proof.
  rewrite (formatLabels_clean_labels_verbatim (gs "requests")
             [(gs "region", gs "us"); (gs "zone", gs "b")]
             (gs "=") (gs ", ") (gs "_")).
  - vm_compute. reflexivity.
  - repeat constructor; vm_compute; intros [? ?]; discriminate.
Defined.



Lemma count_byte_app a s t :
  count_byte a (s ++ t) = (count_byte a s + count_byte a t)%nat.
Proof. unfold count_byte. by rewrite filter_app, length_app. Qed.

Lemma count_byte_absent a s : a ∉ s → count_byte a s = O.
Proof.
  unfold count_byte. induction s as [|x s IH]; [done|].
  intros [Hne Hs]%not_elem_of_cons.
  rewrite filter_cons_False by congruence. by apply IH.
Qed.

Lemma count_byte_single a b :
  count_byte a [b] = if decide (a = b) then 1%nat else O.
Proof.
  unfold count_byte. destruct (decide (a = b)) as [->|Hne].
  - by rewrite filter_cons_True.
  - rewrite filter_cons_False by congruence. done.
Qed.

(** X3: With separators of one byte and a replacement that holds neither,
    the line has, beyond the separator bytes of the name, one pairSep
    and one keySep per label and no other: two per label when the two
    separators are the same byte. *)
Theorem formatLabels_separator_count name (m : labelmap) (a b : ascii) rep :
  a ∉ rep → b ∉ rep →
  count_byte a (formatLabels name m [a] [b] rep)
  = (count_byte a name + (if decide (a = b) then 2 else 1) * length m)%nat
  ∧ count_byte b (formatLabels name m [a] [b] rep)
    = (count_byte b name + (if decide (a = b) then 2 else 1) * length m)%nat.
Proof.
  intros Ha Hb. rewrite formatLabels_fields, !count_byte_app.
  assert (∀ c, c = a ∨ c = b →
            count_byte c
              (concat ((λ kv, [b] ++ escape [a] [b] rep kv.1 ++ [a]
                                ++ escape [a] [b] rep kv.2) <$> m))
            = ((if decide (a = b) then 2 else 1) * length m)%nat) as Hc.
  { intros c Hcab. induction m as [|[k v] m IH]; [simpl; by rewrite Nat.mul_0_r|].
    rewrite fmap_cons. cbn [concat fst snd length].
    rewrite !count_byte_app, IH, !count_byte_single.
    destruct (escape_single_free a b rep k Ha Hb) as [Hk1 Hk2].
    destruct (escape_single_free a b rep v Ha Hb) as [Hv1 Hv2].
    destruct Hcab as [->| ->]; rewrite !count_byte_absent by done;
      repeat case_decide; subst; try done; lia. }
  split; f_equal; apply Hc; auto.
Qed.

Lemma formatLabels_separator_count_witness :
  count_byte (ascii_of_nat 46)
    (formatLabels (gs "http.requests") [(gs "a.b", gs "c"); (gs "d", gs "e.f.g")]
       [ascii_of_nat 46] [ascii_of_nat 46] (gs "_"))
  = 5%nat.
Proof.
  destruct (formatLabels_separator_count (gs "http.requests")
              [(gs "a.b", gs "c"); (gs "d", gs "e.f.g")]
              (ascii_of_nat 46) (ascii_of_nat 46) (gs "_")) as [H _].
  - vm_compute. intros H. repeat (inversion H as [|? ? ? H']; subst; clear H; rename H' into H).
  - vm_compute. intros H. repeat (inversion H as [|? ? ? H']; subst; clear H; rename H' into H).
  - exact H.
Defined.

(** ** One pass, whatever the connection does *)

Lemma writeSocketMetrics_healthy_witness :
  let r := writeSocketMetrics (requests_exporter []) (mkConn 0 healthy 0)
             line_formatter 1%nat 2%nat idle in
  r.2 = None ∧ Value r.1.1 1%nat = 1 ∧ Value r.1.1 2%nat = 2.
Proof.
  destruct (writeSocketMetrics_healthy (requests_exporter [])
              (mkConn 0 healthy 0) line_formatter 1%nat 2%nat idle)
    as (He & _ & Hv).
  - reflexivity.
  - split_and!; [exact He|exact (Hv 1%nat)|exact (Hv 2%nat)].
Defined.




Lemma entered_no_lines hostname f script k ml :
  list_lines hostname f ml = [] → entered script k ml = length ml.
Proof.
  revert k. induction ml as [|m ml IH]; intros k; [done|].
  rewrite list_lines_cons. intros [Hm Hml]%app_eq_nil.
  apply (f_equal length) in Hm. rewrite length_metric_lines in Hm.
  cbn [entered length]. rewrite Hm. cbn [ok_writes].
  rewrite decide_True by done. by rewrite IH.
Qed.

(** X7: When no metric has a label set, the pass writes nothing and returns
    [nil] on any connection, the success counter stays, and the
    attempted counter is still raised once per metric. *)
Theorem pass_without_label_sets e c f exportTotal exportSuccess st :
  export_lines e f = [] →
  let r := writeSocketMetrics e c f exportTotal exportSuccess st in
  r.2 = None
  ∧ wire r.1.1 = wire st
  ∧ ∀ v, Value r.1.1 v
         = Nat.iter (if decide (v = exportTotal)
                     then length (store_metrics (Metrics (e_store e)))
                     else O)
             incr (Value st v).
Proof.
  intros Hl r.
  pose proof (writeSocketMetrics_spec e c f exportTotal exportSuccess st)
    as (Hw & Hv & _ & _ & He). fold r in Hw, Hv, He.
  rewrite Hl in Hw, Hv, He. cbn [length ok_writes] in Hw, Hv, He.
  rewrite (entered_no_lines (Hostname (e_o e)) f) in Hv by exact Hl.
  split_and!.
  - by rewrite He.
  - rewrite Hw. simpl. by rewrite app_nil_r.
  - intros v. rewrite Hv. f_equal. repeat case_decide; lia.
Qed.

Lemma pass_without_label_sets_witness :
  let r := writeSocketMetrics bare_exporter (mkConn 0 (fails_at 0) 0)
             line_formatter 1%nat 2%nat idle in
  r.2 = None ∧ wire r.1.1 = [] ∧ Value r.1.1 1%nat = 1 ∧ Value r.1.1 2%nat = 0.
Proof.
  destruct (pass_without_label_sets bare_exporter (mkConn 0 (fails_at 0) 0)
              line_formatter 1%nat 2%nat idle) as (He & Hw & Hv).
  - reflexivity.
  - split_and!; [exact He|exact Hw|exact (Hv 1%nat)|exact (Hv 2%nat)].
Defined.

(** ** A push cycle as a whole *)

Lemma pushTarget_store_readers net e target st :
  store_readers (pushTarget net e target st) = store_readers st.
Proof.
  destruct (dial_result (net (dialled st))) as [err|] eqn:Hdial.
  - by rewrite (pushTarget_dial_failed _ _ _ _ _ Hdial).
  - by destruct (pushTarget_connected net e target st Hdial) as (_ & _ & _ & Hs).
Qed.

Lemma pushTarget_dialled net e target st :
  dialled (pushTarget net e target st) = S (dialled st).
Proof. by destruct (pushTarget_segment net e target st) as (? & _ & _ & Hd). Qed.

Lemma pushTarget_Value_other net e target st v :
  v ≠ po_total target → v ≠ po_success target →
  Value (pushTarget net e target st) v = Value st v.
Proof.
  intros Ht Hs. destruct (dial_result (net (dialled st))) as [err|] eqn:Hdial.
  - by rewrite (pushTarget_dial_failed _ _ _ _ _ Hdial).
  - destruct (pushTarget_connected net e target st Hdial) as (_ & Hv & _).
    rewrite Hv. by rewrite !decide_False by done.
Qed.

(** X8: A push cycle changes no counter but those of its targets. *)
Theorem PushMetrics_touches_only_target_counters net e st v :
  (∀ t, t ∈ pushTargets e → v ≠ po_total t ∧ v ≠ po_success t) →
  Value (PushMetrics net e st) v = Value st v.
Proof.
  unfold PushMetrics. generalize (pushTargets e). intros targets.
  revert st. induction targets as [|t targets IH]; intros st Hv; [done|].
  rewrite rangeTargets_cons, IH.
  - destruct (Hv t) as [Ht Hs]; [apply list_elem_of_here|].
    by apply pushTarget_Value_other.
  - intros t' Hin. apply Hv. by apply list_elem_of_further.
Qed.

Lemma PushMetrics_touches_only_target_counters_witness :
  Value (PushMetrics (λ _, healthy)
           (requests_exporter [graphite_target; statsd_target]) idle) 5%nat
  = 0.
Proof.
  apply (PushMetrics_touches_only_target_counters (λ _, healthy)
           (requests_exporter [graphite_target; statsd_target]) idle 5%nat).
  intros t Ht. cbn [pushTargets requests_exporter] in Ht.
  apply elem_of_cons in Ht as [->|Ht]; [split; discriminate|].
  apply elem_of_cons in Ht as [->|Ht]; [split; discriminate|].
  by apply elem_of_nil in Ht.
Defined.

Lemma rangeTargets_dialled_unlocked net e targets st :
  dialled (rangeTargets net e targets st) = (dialled st + length targets)%nat
  ∧ store_readers (rangeTargets net e targets st) = store_readers st.
Proof.
  revert st. induction targets as [|t targets IH]; intros st.
  - simpl. by rewrite Nat.add_0_r.
  - rewrite rangeTargets_cons. destruct (IH (pushTarget net e t st)) as [Hd Hs].
    rewrite Hd, Hs, pushTarget_dialled, pushTarget_store_readers.
    simpl. split; [lia|done].
Qed.

(** X9: Whatever the network does, a push cycle dials once per target and
    does not leave the registry read-locked. *)
Theorem PushMetrics_dials_each_target_and_unlocks net e st :
  dialled (PushMetrics net e st) = (dialled st + length (pushTargets e))%nat
  ∧ store_readers (PushMetrics net e st) = store_readers st.
Proof. apply rangeTargets_dialled_unlocked. Qed.

(** X10: After [n] ticks of a running ticker every target has been dialled
    [n] times, and the registry is not read-locked. *)
Theorem ticks_dial_every_target net e period (n : nat) st :
  dialled (ticks net e (Ticking period) n st)
  = (dialled st + n * length (pushTargets e))%nat
  ∧ store_readers (ticks net e (Ticking period) n st) = store_readers st.
Proof.
  induction n as [|n [IHd IHs]]; [simpl; by rewrite Nat.add_0_r|].
  change (ticks net e (Ticking period) (S n) st)
    with (rangeTargets net e (pushTargets e)
            (ticks net e (Ticking period) n st)).
  destruct (rangeTargets_dialled_unlocked net e (pushTargets e)
              (ticks net e (Ticking period) n st)) as [Hd Hs].
  rewrite Hd, Hs, IHd, IHs. split; [lia|done].
Qed.

(** X11: Registering a target puts it last: the push cycle of the exporter
    with [p] registered is the cycle of the exporter as it was, followed
    by the push of [p]. *)
Theorem RegisterPushExport_pushes_last net e p st :
  PushMetrics net (RegisterPushExport e p) st
  = pushTarget net e p (PushMetrics net e st).
Proof.
  assert (∀ targets st', rangeTargets net (RegisterPushExport e p) targets st'
                        = rangeTargets net e targets st') as Hsame.
  { intros targets. induction targets as [|t targets IH]; intros st'; [done|].
    rewrite !rangeTargets_cons, <- IH. done. }
  unfold PushMetrics. rewrite Hsame.
  cbn [RegisterPushExport pushTargets]. by rewrite rangeTargets_app.
Qed.

(** ** Errors are logged and change nothing else *)


Lemma ok_writes_ext s1 s2 k n :
  (∀ x, write_result s1 x = write_result s2 x) →
  ok_writes s1 k n = ok_writes s2 k n.
Proof.
  intros H. revert k. induction n as [|n IH]; intros k; [done|].
  simpl. by rewrite H, IH.
Qed.

Lemma entered_ext s1 s2 k ml :
  (∀ x, write_result s1 x = write_result s2 x) →
  entered s1 k ml = entered s2 k ml.
Proof.
  intros H. revert k. induction ml as [|m ml IH]; intros k; [done|].
  cbn [entered]. by rewrite (ok_writes_ext s1 s2 _ _ H), IH.
Qed.

Lemma write_events_ext id s1 s2 k lines :
  (∀ x, write_result s1 x = write_result s2 x) →
  write_events id s1 k lines = write_events id s2 k lines.
Proof.
  intros H. revert k. induction lines as [|l lines IH]; intros k; [done|].
  simpl. by rewrite H, IH.
Qed.

(** X13: A deadline that cannot be set and a close that fails are not fatal:
    on two connections whose writes behave alike, the same writes reach
    the wire and every counter ends with the same value, whatever the
    deadline and the close return. *)
Theorem deadline_and_close_failures_not_fatal net1 net2 e target st :
  dial_result (net1 (dialled st)) = None →
  dial_result (net2 (dialled st)) = None →
  (∀ k, write_result (net1 (dialled st)) k = write_result (net2 (dialled st)) k) →
  filter (λ ev, is_Write ev = true) (wire (pushTarget net1 e target st))
  = filter (λ ev, is_Write ev = true) (wire (pushTarget net2 e target st))
  ∧ ∀ v, Value (pushTarget net1 e target st) v
         = Value (pushTarget net2 e target st) v.
Proof.
  intros H1 H2 Hw.
  destruct (pushTarget_connected net1 e target st H1) as (Hw1 & Hv1 & _).
  destruct (pushTarget_connected net2 e target st H2) as (Hw2 & Hv2 & _).
  cbv zeta in *. split.
  - rewrite Hw1, Hw2, !filter_app.
    rewrite (ok_writes_ext _ _ _ _ Hw), (write_events_ext _ _ _ _ _ Hw).
    done.
  - intros v. rewrite Hv1, Hv2.
    by rewrite (ok_writes_ext _ _ _ _ Hw), (entered_ext _ _ _ _ Hw).
Qed.

Lemma deadline_and_close_failures_not_fatal_witness :
  let e := requests_exporter [graphite_target] in
  filter (λ ev, is_Write ev = true)
    (wire (pushTarget (λ _, careless) e graphite_target idle))
  = [ Write 0 (gs "requests.region.us" ++ [newline]) None;
      Write 0 (gs "requests.region.eu" ++ [newline]) None ]
  ∧ Value (pushTarget (λ _, careless) e graphite_target idle) 2%nat = 2.
Proof.
  intros e.
  destruct (deadline_and_close_failures_not_fatal (λ _, careless)
              (λ _, healthy) e graphite_target idle) as [Hw Hv].
  - reflexivity.
  - reflexivity.
  - reflexivity.
  - split; [rewrite Hw|rewrite Hv]; vm_compute; reflexivity.
Defined.

Lemma entered_le script k ml : (entered script k ml ≤ length ml)%nat.
Proof.
  revert k. induction ml as [|m ml IH]; intros k; [done|].
  cbn [entered length]. case_decide; [|lia]. specialize (IH (k + length (EmitLabelSets m))%nat). lia.
Qed.

(** X14: As long as a counter does not overflow it does not go down: one
    target's push leaves it where it was or raises it, by no more than
    the number of metrics and of label sets of the registry. *)
Theorem pushTarget_counters_do_not_decrease net e target st v :
  - 2 ^ 63 ≤ Value st v →
  Value st v
  + Z.of_nat (length (store_metrics (Metrics (e_store e)))
              + length (export_lines e (po_f target))) < 2 ^ 63 →
  Value st v ≤ Value (pushTarget net e target st) v
  ≤ Value st v
    + Z.of_nat (length (store_metrics (Metrics (e_store e)))
                + length (export_lines e (po_f target))).
Proof.
  intros Hlo Hhi. destruct (dial_result (net (dialled st))) as [err|] eqn:Hdial.
  - rewrite (pushTarget_dial_failed _ _ _ _ _ Hdial).
    change (Value (Infof _ (emit _ (next_dial st))) v) with (Value st v). lia.
  - destruct (pushTarget_connected net e target st Hdial) as (_ & Hv & _).
    cbv zeta in Hv. rewrite Hv.
    pose proof (entered_le (net (dialled st)) O
                  (store_metrics (Metrics (e_store e)))).
    pose proof (ok_writes_le (net (dialled st)) O
                  (length (export_lines e (po_f target)))).
    rewrite iter_incr_small; repeat case_decide; lia.
Qed.

Lemma pushTarget_counters_do_not_decrease_witness :
  0 ≤ Value (pushTarget (λ _, fails_at 1) (requests_exporter [graphite_target])
               graphite_target idle) 2%nat ≤ 3.
Proof.
  apply (pushTarget_counters_do_not_decrease (λ _, fails_at 1)
           (requests_exporter [graphite_target]) graphite_target idle 2%nat).
  - vm_compute. discriminate.
  - vm_compute. reflexivity.
Defined.

(** ** What [New] builds *)

Lemma New_inv b (os_Hostname : gostring * option error) o e :
  New b os_Hostname o = (Some e, None) →
  ∃ store,
    o_Store o = Some store
    ∧ e = mkExporter store
            (mkOptions (o_Store o)
               (if bool_decide (Hostname o = []) then os_Hostname.1
                else Hostname o)
               (OmitProgLabel o))
            (filter (λ t, po_addr t ≠ []) (backend_targets b)).
Proof.
  unfold New. destruct (o_Store o) as [store|]; [|discriminate].
  destruct os_Hostname as [h herr]. cbn [fst snd].
  intros H. exists store. split; [done|].
  assert (∃ hostname,
            (if bool_decide (Hostname o = []) then (h, herr)
             else (Hostname o, None)) = (hostname, None)
            ∧ hostname = if bool_decide (Hostname o = []) then h
                         else Hostname o) as (hostname & Hh & ->).
  { case_bool_decide; [|by eexists]. destruct herr; [discriminate|by eexists]. }
  rewrite Hh in H. injection H as <-.
  unfold backend_targets, RegisterPushExport.
  rewrite !filter_cons, filter_nil. cbn [po_addr pushTargets e_store e_o app].
  repeat case_bool_decide; repeat case_decide; done.
Qed.

(** X15: The targets of the exporter [New] returns are the backends whose
    address flag is set, and no other, in the order collectd (unix),
    graphite (tcp), statsd (udp); the options are kept. *)
Theorem New_registers_configured_backends b
    (os_Hostname : gostring * option error) o e :
  New b os_Hostname o = (Some e, None) →
  pushTargets e = filter (λ t, po_addr t ≠ []) (backend_targets b)
  ∧ o_Store (e_o e) = o_Store o
  ∧ OmitProgLabel (e_o e) = OmitProgLabel o.
Proof. intros (store & _ & ->)%New_inv. done. Qed.

Lemma New_registers_configured_backends_witness :
  ∃ e, New graphite_only (gs "box", None)
         (mkOptions (Some requests_store) [] true) = (Some e, None)
       ∧ pushTargets e = [graphite_target]
       ∧ OmitProgLabel (e_o e) = true.
Proof.
  eexists. split; [reflexivity|].
  destruct (New_registers_configured_backends graphite_only (gs "box", None)
              (mkOptions (Some requests_store) [] true) _ eq_refl)
    as (Ht & _ & Ho).
  split; [exact Ht|exact Ho].
Defined.

(** X16: With no address flag set the exporter of [New] never pushes, and
    with one set [StartMetricPush] does not stay idle. *)
Theorem New_without_backends_never_pushes b
    (os_Hostname : gostring * option error) o e :
  New b os_Hostname o = (Some e, None) →
  (collectdSocketPath b = [] ∧ graphiteHostPort b = [] ∧ statsdHostPort b = [])
  ↔ ∀ pushInterval st, (StartMetricPush pushInterval e st).2 = NotStarted.
Proof.
  intros (store & _ & ->)%New_inv. unfold StartMetricPush.
  cbn [pushTargets]. unfold backend_targets.
  rewrite !filter_cons, filter_nil. cbn [po_addr]. split.
  - intros (-> & -> & ->). done.
  - intros H. specialize (H 1 idle).
    repeat case_decide; cbn [length Nat.ltb Nat.leb] in H;
      try (destruct (NewTicker _); discriminate).
    done.
Qed.

Lemma New_without_backends_never_pushes_witness :
  ∃ e, New (mkBackends [] [] [] line_formatter line_formatter line_formatter
              1 2 3 4 5 6)
         (gs "box", None) (mkOptions (Some requests_store) [] false)
       = (Some e, None)
       ∧ (StartMetricPush 60 e idle).2 = NotStarted.
Proof.
  eexists. split; [reflexivity|].
  apply (proj1 (New_without_backends_never_pushes
                  (mkBackends [] [] [] line_formatter line_formatter
                     line_formatter 1 2 3 4 5 6)
                  (gs "box", None) (mkOptions (Some requests_store) [] false)
                  _ eq_refl)).
  split_and!; reflexivity.
Defined.

(** X17: [New] returns an exporter or an error, never both and never neither;
    it returns the error exactly when the store is missing, or when no
    hostname is given and [os.Hostname] fails. *)
Theorem New_error_cases b (os_Hostname : gostring * option error) o :
  ((New b os_Hostname o).1 = None ↔ is_Some (New b os_Hostname o).2)
  ∧ (is_Some (New b os_Hostname o).2
     ↔ o_Store o = None ∨ (Hostname o = [] ∧ is_Some os_Hostname.2)).
Proof.
  unfold New. destruct (o_Store o) as [store|].
  - destruct os_Hostname as [h herr]. cbn [fst snd].
    case_bool_decide as Hh.
    + destruct herr as [err|]; cbn [fst snd]; split; split;
        try done; try (by intros [? ?]); eauto.
      * intros [?|[_ [? ?]]]; done.
    + cbn [fst snd]. split; split; try done; try (by intros [? ?]).
      intros [?|[? _]]; done.
  - cbn [fst snd]. split; split; eauto.
Qed.

(** X18: The hostname lookup: when the options name no host and
    [os.Hostname] fails, [New] returns that error wrapped and no
    exporter; when they name one, [os.Hostname] plays no part. *)
Theorem New_hostname_lookup b o :
  (∀ store name err,
     o_Store o = Some store → Hostname o = [] →
     New b (name, Some err) o = (None, Some (Wrap_getting_hostname err)))
  ∧ (∀ h1 h2, Hostname o ≠ [] → New b h1 o = New b h2 o).
Proof.
  split.
  - intros store name err Hs Hh. unfold New. rewrite Hs, Hh. done.
  - intros [n1 e1] [n2 e2] Hh. unfold New.
    destruct (o_Store o); [|done].
    by rewrite !(bool_decide_eq_false_2 (Hostname o = [])) by done.
Qed.

Lemma New_hostname_lookup_witness :
  New graphite_only ([], Some (gs "no hostname"))
    (mkOptions (Some requests_store) [] false)
  = (None, Some (gs "getting hostname: no hostname"))
  ∧ New graphite_only ([], Some (gs "no hostname"))
      (mkOptions (Some requests_store) (gs "host") false)
    = New graphite_only (gs "box", None)
        (mkOptions (Some requests_store) (gs "host") false).
Proof.
  destruct (New_hostname_lookup graphite_only
              (mkOptions (Some requests_store) [] false)) as [H1 _].
  destruct (New_hostname_lookup graphite_only
              (mkOptions (Some requests_store) (gs "host") false)) as [_ H2].
  split.
  - exact (H1 requests_store [] (gs "no hostname") eq_refl eq_refl).
  - apply H2. discriminate.
Defined.
